(** * PermissionsEditorDialog: the permission-grant reconciliation model

    A shallow embedding of
    [client/app/components/PermissionsEditorDialog/index.jsx]:
    payload normalisation, the derived selection filters, the
    grant/revoke commands with their reload, and the debounced user
    search. *)

From stdpp Require Import gmap strings list fin_maps.
From Stdlib Require Import ZArith Lia.

Open Scope Z_scope.

(** ** JavaScript values *)

Module Js.

(** The values the dialog receives are decoded JSON, plus [undefined].
    Numbers are identifiers here and no arithmetic is done on them, so
    they are integers; JSON carries no NaN.  An object is a finite map
    from property names to values, so two objects with the same
    properties are equal whatever the order they were written in. *)
#[warnings="-register-all"] Inductive JsVal : Type :=
| JUndefined
| JNull
| JBool (b : bool)
| JNum (n : Z)
| JStr (s : string)
| JArr (items : list JsVal)
| JObj (fields : gmap string JsVal).

(** [!v] is [negb (truthy v)]. *)
Definition truthy (v : JsVal) : bool :=
  match v with
  | JUndefined | JNull => false
  | JBool b => b
  | JNum n => negb (n =? 0)
  | JStr s => negb (bool_decide (s = EmptyString))
  | JArr _ | JObj _ => true
  end.

(** [typeof v] *)
Definition typeof (v : JsVal) : string :=
  match v with
  | JUndefined => "undefined"
  | JNull | JArr _ | JObj _ => "object"
  | JBool _ => "boolean"
  | JNum _ => "number"
  | JStr _ => "string"
  end.

(** [Array.isArray(v)] *)
Definition isArray (v : JsVal) : bool :=
  match v with JArr _ => true | _ => false end.

(** The elements of an array value. *)
Definition elements (v : JsVal) : list JsVal :=
  match v with JArr items => items | _ => [] end.

(** [v[k]] and [v.k].  Reading a property of [undefined] or [null]
    throws a TypeError, which is [None].  The names the dialog reads
    ([view], [modify], [users], [groups], [results], [id]) are neither
    array indices nor properties of the built-in prototypes, so on an
    array or a primitive the read gives [undefined]. *)
Definition member (v : JsVal) (k : string) : option JsVal :=
  match v with
  | JUndefined | JNull => None
  | JObj fields => Some (default JUndefined (fields !! k))
  | _ => Some JUndefined
  end.

(** [k in Object(v)] for a non-nullish [v]. *)
Definition has_key (v : JsVal) (k : string) : bool :=
  match v with
  | JObj fields => bool_decide (is_Some (fields !! k))
  | _ => false
  end.

(** A value that is compared by value: not an array, not an object. *)
Definition is_scalar (v : JsVal) : bool :=
  match v with JArr _ | JObj _ => false | _ => true end.

(** [a === b].  Scalars are compared by value.  Arrays and objects are
    compared by reference; the values compared here are decoded from
    separate responses, so two of them are never the same reference. *)
Definition strict_eq (a b : JsVal) : bool :=
  match a, b with
  | JUndefined, JUndefined => true
  | JNull, JNull => true
  | JBool x, JBool y => bool_decide (x = y)
  | JNum x, JNum y => x =? y
  | JStr x, JStr y => bool_decide (x = y)
  | _, _ => false
  end.

(** The comparison of [Set.prototype.has]; it differs from [===] only
    on NaN, which these values do not contain. *)
Definition same_value_zero (a b : JsVal) : bool := strict_eq a b.

End Js.

Import Js.

(** ** The grant set and its normalisation *)

(** [ACCESS_TYPES], which are also the keys of [out]. *)
Inductive AccessType : Type := View | Modify.

Definition key_of (t : AccessType) : string :=
  match t with View => "view" | Modify => "modify" end.

Definition ACCESS_TYPES : list AccessType := [View; Modify].

(** [{ users: [...], groups: [...] }] *)
Record AccessList : Type := mkAccessList {
  users : list JsVal;
  groups : list JsVal
}.

(** [{ view: {...}, modify: {...} }] *)
Record GrantSet : Type := mkGrantSet {
  view : AccessList;
  modify : AccessList
}.

Definition empty_access : AccessList := {| users := []; groups := [] |}.

(** The object [out] starts as, and the initial [grants] state. *)
Definition empty_grants : GrantSet :=
  {| view := empty_access; modify := empty_access |}.

(** [gs[key]] *)
Definition access (gs : GrantSet) (key : AccessType) : AccessList :=
  match key with View => view gs | Modify => modify gs end.

Definition set_access (key : AccessType) (a : AccessList) (gs : GrantSet) : GrantSet :=
  match key with
  | View => {| view := a; modify := modify gs |}
  | Modify => {| view := view gs; modify := a |}
  end.

(** [out[key].users = us] *)
Definition set_users (key : AccessType) (us : list JsVal) (out : GrantSet) : GrantSet :=
  set_access key {| users := us; groups := groups (access out key) |} out.

(** [out[key].groups = gs] *)
Definition set_groups (key : AccessType) (gs : list JsVal) (out : GrantSet) : GrantSet :=
  set_access key {| users := users (access out key); groups := gs |} out.

(** The grant set as the JavaScript object it is. *)
Definition access_to_js (a : AccessList) : JsVal :=
  JObj (<["users" := JArr (users a)]> (<["groups" := JArr (groups a)]> ∅)).

Definition to_js (gs : GrantSet) : JsVal :=
  JObj (<["view" := access_to_js (view gs)]>
        (<["modify" := access_to_js (modify gs)]> ∅)).

(** The body of the [forEach] callback for one key. *)
Definition normalize_key (data : JsVal) (out : GrantSet) (key : AccessType)
  : option GrantSet :=
  val ← member data (key_of key);
  if negb (truthy val) then Some out
  else if isArray val then
    Some (set_users key (elements val) out)
  else if bool_decide (typeof val = "object") then
    us ← member val "users";
    let out1 := set_users key (if isArray us then elements us else []) out in
    gs ← member val "groups";
    Some (set_groups key (if isArray gs then elements gs else []) out1)
  else Some out.

(** [keys.forEach(key => ...)], threading [out]. *)
Fixpoint forEach_key (data : JsVal) (keys : list AccessType) (out : GrantSet)
  : option GrantSet :=
  match keys with
  | [] => Some out
  | key :: rest => out' ← normalize_key data out key; forEach_key data rest out'
  end.

(** [normalizePermissionsShape(data)]; [None] is a thrown TypeError. *)
Definition normalizePermissionsShape (data : JsVal) : option GrantSet :=
  let out := empty_grants in
  if negb (truthy data) || negb (bool_decide (typeof data = "object")) then Some out
  else forEach_key data ACCESS_TYPES out.

(** The current shape, as the specification words it: an object with
    exactly the keys [view] and [modify], each an object with exactly
    the keys [users] and [groups], both arrays. *)
Definition canonical_access (v : JsVal) : Prop :=
  ∃ fields us gs,
    v = JObj fields ∧ dom fields = ({["users"; "groups"]} : gset string) ∧
    fields !! "users" = Some (JArr us) ∧ fields !! "groups" = Some (JArr gs).

Definition canonical_shape (g : JsVal) : Prop :=
  ∃ fields v m,
    g = JObj fields ∧ dom fields = ({["view"; "modify"]} : gset string) ∧
    fields !! "view" = Some v ∧ fields !! "modify" = Some m ∧
    canonical_access v ∧ canonical_access m.

(** ** The lodash helpers the filters use *)

(** The source imports [find] and [get] from lodash, which is not part
    of it; the two follow lodash's implementation. *)
Module Lodash.

Section Matches.

(** [find] with the source object [{ id: src }] compares an array or
    object [src] by lodash's partial deep comparison, which stays
    abstract: user ids are scalars. *)
Variable isMatchDeep : JsVal → JsVal → bool.

(** The predicate [_.matches({ id: src })].  For a scalar [src] lodash
    takes the strict path: [object != null && object.id === src &&
    (src !== undefined || "id" in Object(object))]. *)
Definition matches_id (src object : JsVal) : bool :=
  if is_scalar src then
    match member object "id" with
    | None => false
    | Some v => strict_eq v src && (negb (strict_eq src JUndefined) || has_key object "id")
    end
  else isMatchDeep src object.

(** [find(collection, { id: src })]: the first matching element, or
    [undefined]. *)
Definition find (collection : list JsVal) (src : JsVal) : JsVal :=
  default JUndefined (List.find (matches_id src) collection).

End Matches.

(** [get(object, path)] for a one-segment path. *)
Definition get (object : JsVal) (path : string) : JsVal :=
  default JUndefined (member object path).

End Lodash.

(** ** The selection filters *)

Section Filters.

Variable isMatchDeep : JsVal → JsVal → bool.

(** The [author] prop of the dialog. *)
Variable author : JsVal.

(** [userHasPermission(u, type)] under the state [grants]. *)
Definition userHasPermission (grants : GrantSet) (u : JsVal) (type : AccessType)
  : option bool :=
  uid ← member u "id";
  aid ← member author "id";
  if strict_eq uid aid then Some true
  else
    Some (truthy (Lodash.get
                    (Lodash.find isMatchDeep (users (access grants type)) uid) "id")).

(** [u => !userHasPermission(u, type)], the [shouldShowUser] prop. *)
Definition shouldShowUser (grants : GrantSet) (type : AccessType) (u : JsVal)
  : option bool :=
  negb <$> userHasPermission grants u type.

End Filters.

(** [xs.filter(p)] for a callback that may throw. *)
Fixpoint filterM {A : Type} (p : A → option bool) (xs : list A) : option (list A) :=
  match xs with
  | [] => Some []
  | x :: rest =>
      keep ← p x;
      rest' ← filterM p rest;
      Some (if (keep : bool) then x :: rest' else rest')
  end.

(** The users [UserSelect] renders as options once loading is over:
    [users.filter(shouldShowUser)]. *)
Definition offeredUsers (shouldShow : JsVal → option bool) (found : list JsVal)
  : option (list JsVal) :=
  filterM shouldShow found.

(** [gs.map(g => g.id)] *)
Definition ids_of (gs : list JsVal) : option (list JsVal) :=
  mapM (λ g, member g "id") gs.

(** [grantedIds.has(v)] for the [Set] built from the list [ids]. *)
Definition set_has (ids : list JsVal) (v : JsVal) : bool :=
  existsb (same_value_zero v) ids.

(** [availableGroups]; a value of [allGroups] that is no array has no
    [filter] to call. *)
Definition availableGroups (grants : GrantSet) (allGroups : JsVal)
  : option (list JsVal) :=
  viewIds ← ids_of (groups (view grants));
  modifyIds ← ids_of (groups (modify grants));
  let grantedIds := viewIds ++ modifyIds in
  match allGroups with
  | JArr gs => filterM (λ g, gid ← member g "id"; Some (negb (set_has grantedIds gid))) gs
  | _ => None
  end.

(** [g.id] of a group record that is not nullish. *)
Definition group_id (g : JsVal) : JsVal := default JUndefined (member g "id").

(** The ids granted under either category, as the specification words
    [availableGroups]. *)
Definition granted_ids (grants : GrantSet) : list JsVal :=
  map group_id (groups (view grants) ++ groups (modify grants)).

(** A record whose properties can be read. *)
Definition readable (v : JsVal) : Prop := is_Some (member v "id").

(** ** Promises, requests and the dialog state *)

(** How a promise settles.  No handler of the dialog looks at the
    reason of a rejection. *)
Inductive Settled (A : Type) : Type :=
| Fulfilled (a : A)
| Rejected.

Arguments Fulfilled {A} a.
Arguments Rejected {A}.

Inductive Method : Type := GET | POST | DELETE.

(** One [axios] call: [get(url)], [post(url, data)] or
    [delete(url, { data })]. *)
Record Request : Type := mkRequest {
  method : Method;
  url : string;
  data : JsVal
}.

(** What the dialog does that can be observed from outside, plus the
    entry into [loadAll]. *)
Inductive Event : Type :=
| Requested (r : Request)
| LoadAllCalled
| SetLoading (b : bool)
| SetGrants (g : GrantSet)
| SetAllGroups (v : JsVal)
| Notified (msg : string).

(** The three [useState] cells of the dialog. *)
Record Dialog : Type := mkDialog {
  loading : bool;
  grants : GrantSet;
  allGroups : JsVal
}.

(** The state on mount: [useState(true)], the empty grants,
    [useState([])]. *)
Definition initial_dialog : Dialog :=
  {| loading := true; grants := empty_grants; allGroups := JArr [] |}.

(** The dialog state and everything done so far, oldest first. *)
Record World : Type := mkWorld {
  dialog : Dialog;
  trace : list Event
}.

(** The requests sent so far, oldest first. *)
Fixpoint requests_of (evs : list Event) : list Request :=
  match evs with
  | [] => []
  | Requested r :: rest => r :: requests_of rest
  | _ :: rest => requests_of rest
  end.

(** How many times [loadAll] was entered. *)
Fixpoint loadAll_calls (evs : list Event) : nat :=
  match evs with
  | [] => 0%nat
  | LoadAllCalled :: rest => S (loadAll_calls rest)
  | _ :: rest => loadAll_calls rest
  end.

(** The [setGrants] calls in a trace. *)
Fixpoint grants_writes (evs : list Event) : list GrantSet :=
  match evs with
  | [] => []
  | SetGrants g :: rest => g :: grants_writes rest
  | _ :: rest => grants_writes rest
  end.

(** The notifications in a trace. *)
Fixpoint notifications (evs : list Event) : list string :=
  match evs with
  | [] => []
  | Notified msg :: rest => msg :: notifications rest
  | _ :: rest => notifications rest
  end.

(** An effectful computation of the dialog. *)
Definition Eff (A : Type) : Type := World → A * World.

Definition eff_ret {A : Type} (a : A) : Eff A := λ w, (a, w).

Definition eff_bind {A B : Type} (c : Eff A) (k : A → Eff B) : Eff B :=
  λ w, let (a, w') := c w in k a w'.

#[export] Instance eff_mret : MRet Eff := @eff_ret.
#[export] Instance eff_mbind : MBind Eff := λ A B k c, eff_bind c k.

Definition emit (e : Event) : Eff unit :=
  λ w, (tt, {| dialog := dialog w; trace := trace w ++ [e] |}).

Definition setLoading (b : bool) : Eff unit :=
  λ w, (tt, {| dialog := {| loading := b; grants := grants (dialog w);
                            allGroups := allGroups (dialog w) |};
               trace := trace w ++ [SetLoading b] |}).

Definition setGrants (g : GrantSet) : Eff unit :=
  λ w, (tt, {| dialog := {| loading := loading (dialog w); grants := g;
                            allGroups := allGroups (dialog w) |};
               trace := trace w ++ [SetGrants g] |}).

Definition setAllGroups (v : JsVal) : Eff unit :=
  λ w, (tt, {| dialog := {| loading := loading (dialog w);
                            grants := grants (dialog w); allGroups := v |};
               trace := trace w ++ [SetAllGroups v] |}).

(** [notification.error(msg)] *)
Definition notify_error (msg : string) : Eff unit := emit (Notified msg).

(** [p.then(f)]: a callback that throws rejects the new promise. *)
Definition then_ {A B : Type} (p : Settled A) (f : A → Eff (Settled B))
  : Eff (Settled B) :=
  match p with
  | Fulfilled a => f a
  | Rejected => eff_ret Rejected
  end.

(** [p.catch(h)] *)
Definition catch_ {A : Type} (p : Settled A) (h : Eff (Settled A))
  : Eff (Settled A) :=
  match p with
  | Fulfilled a => eff_ret (Fulfilled a)
  | Rejected => h
  end.

(** [p.finally(h)] for a handler that does not throw. *)
Definition finally_ {A : Type} (p : Settled A) (h : Eff unit) : Eff (Settled A) :=
  _ ← h; eff_ret p.

(** [Promise.all([p, q])] *)
Definition all2 {A B : Type} (p : Settled A) (q : Settled B) : Settled (A * B) :=
  match p, q with
  | Fulfilled a, Fulfilled b => Fulfilled (a, b)
  | _, _ => Rejected
  end.

Section Reconciler.

(** The [aclUrl] prop. *)
Variable aclUrl : string.

(** The network and the server behind it: how the request [r] settles
    after the requests [sent] before it. *)
Variable reply : list Request → Request → Settled JsVal.

Definition axios (r : Request) : Eff (Settled JsVal) :=
  λ w, (reply (requests_of (trace w)) r,
        {| dialog := dialog w; trace := trace w ++ [Requested r] |}).

Definition axios_get (u : string) : Eff (Settled JsVal) :=
  axios {| method := GET; url := u; data := JUndefined |}.

Definition axios_post (u : string) (body : JsVal) : Eff (Settled JsVal) :=
  axios {| method := POST; url := u; data := body |}.

Definition axios_delete (u : string) (body : JsVal) : Eff (Settled JsVal) :=
  axios {| method := DELETE; url := u; data := body |}.

(** [listAllGroups()] *)
Definition listAllGroups : Eff (Settled JsVal) :=
  res ← axios_get "/api/groups";
  listed ← then_ res (λ res,
     eff_ret (if isArray res then Fulfilled res
              else match member res "results" with
                   | None => Rejected
                   | Some results =>
                       Fulfilled (if truthy results then results else JArr [])
                   end));
  catch_ listed (eff_ret (Fulfilled (JArr []))).

(** The promise chain [loadAll] builds, run to its end. *)
Definition loadAll_chain : Eff (Settled unit) :=
  _ ← setLoading true;
  fetched ← axios_get aclUrl;
  perm ← catch_ fetched (eff_ret (Fulfilled (JObj ∅)));
  groups ← listAllGroups;
  stored ← then_ (all2 perm groups) (λ both,
     match normalizePermissionsShape (fst both) with
     | None => eff_ret Rejected
     | Some gs => _ ← setGrants gs; _ ← setAllGroups (snd both); eff_ret (Fulfilled tt)
     end);
  handled ← catch_ stored
    (_ ← notify_error "Failed to load permissions"; eff_ret (Fulfilled tt));
  finally_ handled (setLoading false).

(** [loadAll()]; it returns nothing. *)
Definition loadAll : Eff unit :=
  _ ← emit LoadAllCalled; _ ← loadAll_chain; eff_ret tt.

(** The body [{ access_type, user_id }] or [{ access_type, group_id }]. *)
Definition grant_body (accessType : AccessType) (idKey : string) (id : JsVal) : JsVal :=
  JObj (<["access_type" := JStr (key_of accessType)]> (<[idKey := id]> ∅)).

(** [request.then(loadAll).catch(() => notification.error(msg))].  The
    reload is run to its end here; in the browser it ends after the
    promise of the command has settled, and the command does nothing
    in between. *)
Definition reload_or_report (sent : Eff (Settled JsVal)) (msg : string)
  : Eff (Settled unit) :=
  settled ← sent;
  reloaded ← then_ settled (λ _, _ ← loadAll; eff_ret (Fulfilled tt));
  catch_ reloaded (_ ← notify_error msg; eff_ret (Fulfilled tt)).

Definition grantUser (accessType : AccessType) (userId : JsVal) : Eff (Settled unit) :=
  reload_or_report (axios_post aclUrl (grant_body accessType "user_id" userId))
                   "Could not grant permission to the user".

Definition revokeUser (accessType : AccessType) (userId : JsVal) : Eff (Settled unit) :=
  reload_or_report (axios_delete aclUrl (grant_body accessType "user_id" userId))
                   "Could not remove permission from the user".

Definition grantGroup (accessType : AccessType) (groupId : JsVal) : Eff (Settled unit) :=
  reload_or_report (axios_post aclUrl (grant_body accessType "group_id" groupId))
                   "Could not grant permission to the group".

Definition revokeGroup (accessType : AccessType) (groupId : JsVal) : Eff (Settled unit) :=
  reload_or_report (axios_delete aclUrl (grant_body accessType "group_id" groupId))
                   "Could not remove permission from the group".

End Reconciler.

(** The users a payload lists under a category, as the specification
    words the normalisation rule: a sequence is the users list, a
    mapping gives its [users] field if that is a sequence. *)
Definition listed_users (perm : JsVal) (t : AccessType) : list JsVal :=
  match perm with
  | JObj fields =>
      match fields !! key_of t with
      | Some (JArr us) => us
      | Some (JObj entry) =>
          match entry !! "users" with
          | Some (JArr us) => us
          | _ => []
          end
      | _ => []
      end
  | _ => []
  end.

(** The two requests of a reload. *)
Definition acl_request (aclUrl : string) : Request :=
  {| method := GET; url := aclUrl; data := JUndefined |}.

Definition groups_request : Request :=
  {| method := GET; url := "/api/groups"; data := JUndefined |}.

(** What one full reload adds to the trace when it stores [gs] and
    [gl]. *)
Definition reload_events (aclUrl : string) (gs : GrantSet) (gl : JsVal) : list Event :=
  [SetLoading true; Requested (acl_request aclUrl); Requested groups_request;
   SetGrants gs; SetAllGroups gl; SetLoading false].

(** The four commands, to state what they share. *)
Inductive Command : Type := GrantUser | RevokeUser | GrantGroup | RevokeGroup.

Definition run_command (aclUrl : string) (reply : list Request → Request → Settled JsVal)
  (c : Command) : AccessType → JsVal → Eff (Settled unit) :=
  match c with
  | GrantUser => grantUser aclUrl reply
  | RevokeUser => revokeUser aclUrl reply
  | GrantGroup => grantGroup aclUrl reply
  | RevokeGroup => revokeGroup aclUrl reply
  end.

(** The request a command sends. *)
Definition command_request (aclUrl : string) (c : Command) (t : AccessType) (id : JsVal)
  : Request :=
  match c with
  | GrantUser => {| method := POST; url := aclUrl; data := grant_body t "user_id" id |}
  | RevokeUser => {| method := DELETE; url := aclUrl; data := grant_body t "user_id" id |}
  | GrantGroup => {| method := POST; url := aclUrl; data := grant_body t "group_id" id |}
  | RevokeGroup => {| method := DELETE; url := aclUrl; data := grant_body t "group_id" id |}
  end.

(** The message a command reports when its request fails. *)
Definition command_error (c : Command) : string :=
  match c with
  | GrantUser => "Could not grant permission to the user"
  | RevokeUser => "Could not remove permission from the user"
  | GrantGroup => "Could not grant permission to the group"
  | RevokeGroup => "Could not remove permission from the group"
  end.

(** ** Sample data *)

Definition user_record (id : Z) (name email : string) : JsVal :=
  JObj (<["id" := JNum id]> (<["name" := JStr name]> (<["email" := JStr email]> ∅))).

Definition group_record (id : Z) (name : string) : JsVal :=
  JObj (<["id" := JNum id]> (<["name" := JStr name]> ∅)).

Definition sample_url : string := "/api/permissions/queries/42".

Definition initial_world : World := {| dialog := initial_dialog; trace := [] |}.

(** A legacy payload [{ view: [u1, u2], modify: [] }]. *)
Definition legacy_payload : gmap string JsVal :=
  <["view" := JArr [user_record 1 "Ada" "ada@example.org";
                    user_record 2 "Bob" "bob@example.org"]]>
    (<["modify" := JArr []]> ∅).

(** A current-shape payload in which user 7 may modify. *)
Definition payload_with_7 : JsVal :=
  to_js {| view := empty_access;
           modify := {| users := [user_record 7 "Eve" "eve@example.org"];
                        groups := [] |} |}.

Definition is_post (r : Request) : bool :=
  match method r with POST => true | _ => false end.

(** A server on which every request succeeds and a grant shows in the
    next payload. *)
Definition sample_reply (sent : list Request) (r : Request) : Settled JsVal :=
  match method r with
  | GET =>
      if bool_decide (url r = "/api/groups") then
        Fulfilled (JArr [group_record 1 "admin"; group_record 2 "default"])
      else if existsb is_post sent then Fulfilled payload_with_7
      else Fulfilled (to_js empty_grants)
  | _ => Fulfilled JNull
  end.

(** A network on which every request fails. *)
Definition failing_reply (sent : list Request) (r : Request) : Settled JsVal :=
  Rejected.

(** Grants in which two groups hold a grant, one per category. *)
Definition sample_group_grants : GrantSet :=
  {| view := {| users := []; groups := [group_record 1 "admin"] |};
     modify := {| users := []; groups := [group_record 3 "ops"] |} |}.

Definition sample_directory : list JsVal :=
  [group_record 1 "admin"; group_record 2 "default"; group_record 3 "ops"].

(** Grants in which a user with the id 0 may view, on an object of
    user 1. *)
Definition user_zero : JsVal := user_record 0 "root" "root@example.org".

Definition sample_author : JsVal := user_record 1 "Ada" "ada@example.org".

Definition grants_with_user_zero : GrantSet :=
  {| view := {| users := [user_zero]; groups := [group_record 0 "everyone"] |};
     modify := empty_access |}.

(** A partial deep comparison that matches nothing; the sample ids are
    scalars, which never reach it. *)
Definition no_deep_match (src object : JsVal) : bool := false.

(** ** The debounced user search *)

Module Debounce.

Definition DEBOUNCE_SEARCH_DURATION : Z := 200.

(** Modelled from the spec: lodash's [debounce(func, wait)], which the
    source imports and calls and which is not part of it.  The
    specification asks that each keystroke schedules a lookup no sooner
    than the quiet interval after the last keystroke, and that a
    superseding keystroke replaces the pending one.  [Debounced] holds
    the closure variables lodash keeps to do that, with its default
    options: no leading call, a trailing call, no [maxWait].  Times are
    [Date.now()] readings; [timerId] holds the time the pending timer
    is due, and a timer runs when it is due. *)
Record Debounced : Type := mkDebounced {
  lastArgs : option string;
  lastCallTime : option Z;
  lastInvokeTime : Z;
  timerId : option Z
}.

(** The state [debounce] returns. *)
Definition fresh : Debounced :=
  {| lastArgs := None; lastCallTime := None; lastInvokeTime := 0; timerId := None |}.

(** A call of [func], that is of [searchUsers(term)]: when, and for
    which term. *)
Definition SearchCall : Type := Z * string.

Section Wait.

Variable wait : Z.

Definition shouldInvoke (time : Z) (s : Debounced) : bool :=
  match lastCallTime s with
  | None => true
  | Some called => bool_decide (wait ≤ time - called) || bool_decide (time - called < 0)
  end.

Definition remainingWait (time : Z) (s : Debounced) : Z :=
  wait - (time - default 0 (lastCallTime s)).

Definition invokeFunc (time : Z) (args : string) (s : Debounced)
  : Debounced * list SearchCall :=
  ({| lastArgs := None; lastCallTime := lastCallTime s;
      lastInvokeTime := time; timerId := timerId s |},
   [(time, args)]).

Definition trailingEdge (time : Z) (s : Debounced) : Debounced * list SearchCall :=
  let s := {| lastArgs := lastArgs s; lastCallTime := lastCallTime s;
              lastInvokeTime := lastInvokeTime s; timerId := None |} in
  match lastArgs s with
  | Some args => invokeFunc time args s
  | None => (s, [])
  end.

Definition timerExpired (time : Z) (s : Debounced) : Debounced * list SearchCall :=
  if shouldInvoke time s then trailingEdge time s
  else ({| lastArgs := lastArgs s; lastCallTime := lastCallTime s;
           lastInvokeTime := lastInvokeTime s;
           timerId := Some (time + remainingWait time s) |}, []).

(** With [leading] off, the leading edge only starts the timer. *)
Definition leadingEdge (time : Z) (s : Debounced) : Debounced :=
  {| lastArgs := lastArgs s; lastCallTime := lastCallTime s;
     lastInvokeTime := time; timerId := Some (time + wait) |}.

(** A call [debounced(args)] at [time]. *)
Definition debounced (time : Z) (args : string) (s : Debounced) : Debounced :=
  let isInvoking := shouldInvoke time s in
  let s := {| lastArgs := Some args; lastCallTime := Some time;
              lastInvokeTime := lastInvokeTime s; timerId := timerId s |} in
  match timerId s with
  | None =>
      if isInvoking then leadingEdge time s
      else {| lastArgs := lastArgs s; lastCallTime := lastCallTime s;
              lastInvokeTime := lastInvokeTime s; timerId := Some (time + wait) |}
  | Some _ => s
  end.

(** The pending timer runs when it is due. *)
Definition run_timer (now : Z) (s : Debounced) : Debounced * list SearchCall :=
  match timerId s with
  | Some due => if bool_decide (due ≤ now) then timerExpired due s else (s, [])
  | None => (s, [])
  end.

(** Time passes until [now].  A timer that finds a later call re-arms
    for the rest of that call's wait and then runs the trailing edge,
    so two runs bring the state up to [now]. *)
Definition advance (now : Z) (s : Debounced) : Debounced * list SearchCall :=
  let (s1, out1) := run_timer now s in
  let (s2, out2) := run_timer now s1 in
  (s2, out1 ++ out2).

(** The effect of [UserSelect] runs once per new search term and calls
    [debouncedSearchUsers(searchTerm)]; [keys] are those runs, each
    with its time, oldest first. *)
Fixpoint typing (keys : list (Z * string)) (s : Debounced)
  : Debounced * list SearchCall :=
  match keys with
  | [] => (s, [])
  | (t, term) :: rest =>
      let (s1, out1) := advance t s in
      let (s2, out2) := typing rest (debounced t term s1) in
      (s2, out1 ++ out2)
  end.

(** The searches issued by the keystrokes [keys] and the silence after
    them, up to the time [until]. *)
Definition searches (keys : list (Z * string)) (until : Z) (s : Debounced)
  : list SearchCall :=
  let (s1, out1) := typing keys s in
  let (_, out2) := advance until s1 in
  out1 ++ out2.

(** Each keystroke comes no earlier than the one before it and less
    than [wait] after it. *)
Fixpoint within_quiet_interval (keys : list (Z * string)) : Prop :=
  match keys with
  | [] => True
  | (t, _) :: rest =>
      match rest with
      | [] => True
      | (t', _) :: _ => t ≤ t' < t + wait
      end ∧ within_quiet_interval rest
  end.

(** At the time [t] of the first keystroke no earlier lookup is due:
    either none is pending, or the call that scheduled it is itself
    less than [wait] old. *)
Definition quiet_start (t : Z) (s : Debounced) : Prop :=
  match timerId s with
  | None => True
  | Some due =>
      ∃ called, lastCallTime s = Some called ∧
                called < due ≤ called + wait ∧ called ≤ t < called + wait
  end.

(** Modelled from the spec: the same contract in the specification's
    own words, to compare with the state machine above.  At most one
    lookup is pending, with the time it is due and its term; a keystroke
    cancels it and schedules one for its own term, [wait] later. *)
Definition Pending : Type := option (Z * string).

Definition schedule (t : Z) (term : string) (p : Pending) : Pending :=
  Some (t + wait, term).

(** Time passes until [now]: a pending lookup that is due runs. *)
Definition elapse (now : Z) (p : Pending) : Pending * list SearchCall :=
  match p with
  | Some (due, term) =>
      if bool_decide (due ≤ now) then (None, [(due, term)]) else (p, [])
  | None => (None, [])
  end.

Fixpoint scheduled_typing (keys : list (Z * string)) (p : Pending)
  : Pending * list SearchCall :=
  match keys with
  | [] => (p, [])
  | (t, term) :: rest =>
      let (p1, out1) := elapse t p in
      let (p2, out2) := scheduled_typing rest (schedule t term p1) in
      (p2, out1 ++ out2)
  end.

Definition scheduled_searches (keys : list (Z * string)) (until : Z) (p : Pending)
  : list SearchCall :=
  let (p1, out1) := scheduled_typing keys p in
  let (_, out2) := elapse until p1 in
  out1 ++ out2.

(** The keystrokes come in the order of their times, none before
    [from]. *)
Fixpoint in_order (from : Z) (keys : list (Z * string)) : Prop :=
  match keys with
  | [] => True
  | (t, _) :: rest => from ≤ t ∧ in_order t rest
  end.

(** The state machine [s] holds the pending lookup [p]; its latest call
    was not after [from]. *)
Definition tracks (from : Z) (s : Debounced) (p : Pending) : Prop :=
  match p with
  | None => timerId s = None
  | Some (lookup_due, term) =>
      ∃ t due, lastArgs s = Some term ∧ lastCallTime s = Some t ∧
               timerId s = Some due ∧ t < due ≤ t + wait ∧
               lookup_due = t + wait ∧ t ≤ from
  end.


(** When the search for a keystroke runs. *)
Definition search_of (key : Z * string) : SearchCall := (fst key + wait, snd key).

(** After a call for [term] at [t]: the call is recorded and a timer
    is pending, due within [wait] of it. *)
Definition armed (t : Z) (term : string) (s : Debounced) : Prop :=
  lastArgs s = Some term ∧ lastCallTime s = Some t ∧
  ∃ due, timerId s = Some due ∧ t < due ≤ t + wait.

End Wait.

(** Typing "a", "al", "ali" with 50 and 70 time units between the
    keystrokes. *)
Definition typing_ali : list (Z * string) := [(0, "a"); (50, "al"); (120, "ali")].

End Debounce.

(** ** The user search and its select box *)

(** [searchUsers(searchTerm)], given how [User.query({ q: searchTerm })]
    settles.  The callback destructures [{ results }] from the reply,
    which throws on [null] and [undefined]; the [catch] turns a
    rejection into the empty list. *)
Definition searchUsers (queried : Settled JsVal) : Settled JsVal :=
  let found :=
    match queried with
    | Fulfilled res =>
        match member res "results" with
        | Some results => Fulfilled results
        | None => Rejected
        end
    | Rejected => Rejected
    end in
  match found with
  | Fulfilled results => Fulfilled results
  | Rejected => Fulfilled (JArr [])
  end.

Module UserSelect.

(** The three [useState] cells of [UserSelect]. *)
Record State : Type := mkState {
  loadingUsers : bool;
  users : JsVal;
  searchTerm : string
}.

Definition initial : State :=
  {| loadingUsers := true; users := JArr []; searchTerm := EmptyString |}.

(** [onSearch={setSearchTerm}]: a new term runs the effect, which sets
    [loadingUsers] before it calls the debounced search. *)
Definition on_search (term : string) (s : State) : State :=
  if bool_decide (term = searchTerm s) then s
  else {| loadingUsers := true; users := users s; searchTerm := term |}.

(** [searchUsers(search).then(setUsers).finally(() => setLoadingUsers(false))],
    once the query has settled. *)
Definition on_search_settled (queried : Settled JsVal) (s : State) : State :=
  match searchUsers queried with
  | Fulfilled found =>
      {| loadingUsers := false; users := found; searchTerm := searchTerm s |}
  | Rejected =>
      {| loadingUsers := false; users := users s; searchTerm := searchTerm s |}
  end.

(** An [<Option>] of the select box: the disabled placeholder, or a
    user with its value [user.id], its label [user.name || user.email]
    and the email shown beside it. *)
Inductive SelectOption : Type :=
| LoadingOption
| UserOption (value label email : JsVal).

Definition option_of (user : JsVal) : option SelectOption :=
  id ← member user "id";
  name ← member user "name";
  email ← member user "email";
  Some (UserOption id (if truthy name then name else email) email).

(** The children of the [<Select>]; a [users] state that is no array
    has no [filter] to call. *)
Definition options (shouldShowUser : JsVal → option bool) (s : State)
  : option (list SelectOption) :=
  if loadingUsers s then Some [LoadingOption]
  else
    match users s with
    | JArr found => shown ← filterM shouldShowUser found; mapM option_of shown
    | _ => None
    end.

End UserSelect.

(** ** The rows of the grant lists *)

(** What a row offers: a Revoke button, with the command its click
    runs, or the Author tag. *)
Inductive RowAction : Type :=
| RevokeButton (c : Command) (type : AccessType) (id : JsVal)
| AuthorTag.

(** [renderItem] of the users list in [UserGrants]. *)
Definition userRowAction (author : JsVal) (type : AccessType) (user : JsVal)
  : option RowAction :=
  uid ← member user "id";
  aid ← member author "id";
  if negb (strict_eq uid aid) then Some (RevokeButton RevokeUser type uid)
  else Some AuthorTag.

(** The actions of the rows of [grants[type].users]. *)
Definition userRowActions (author : JsVal) (grants : GrantSet) (type : AccessType)
  : option (list RowAction) :=
  mapM (userRowAction author type) (users (access grants type)).

(** A user record whose id is a scalar that is truthy, as a database
    key is. *)
Definition identified (u : JsVal) : Prop :=
  ∃ uid, member u "id" = Some uid ∧ is_scalar uid = true ∧ truthy uid = true.

(** Whether the list [entries] has an entry with the id [uid]. *)
Definition has_id (entries : list JsVal) (uid : JsVal) : bool :=
  existsb (λ entry, strict_eq (group_id entry) uid) entries.

(** The group list a reply of the directory stands for: an array is
    the list, an object gives its [results] if that is truthy, and
    anything else, like a failed request, gives the empty list. *)
Definition directory_of (r : Settled JsVal) : JsVal :=
  match r with
  | Fulfilled (JArr gl) => JArr gl
  | Fulfilled (JObj fields) =>
      match fields !! "results" with
      | Some results => if truthy results then results else JArr []
      | None => JArr []
      end
  | _ => JArr []
  end.

(** ** More sample data *)

(** A server on which grants succeed and the reload of the permissions
    fails. *)
Definition reply_reload_fails (sent : list Request) (r : Request) : Settled JsVal :=
  match method r with
  | GET =>
      if bool_decide (url r = "/api/groups") then
        Fulfilled (JArr [group_record 1 "admin"])
      else Rejected
  | _ => Fulfilled JNull
  end.

(** A server on which only the group directory fails. *)
Definition reply_groups_fail (sent : list Request) (r : Request) : Settled JsVal :=
  match method r with
  | GET =>
      if bool_decide (url r = "/api/groups") then Rejected
      else Fulfilled payload_with_7
  | _ => Fulfilled JNull
  end.

(** A server whose group directory answers [{ results: "none" }]. *)
Definition reply_groups_text (sent : list Request) (r : Request) : Settled JsVal :=
  match method r with
  | GET =>
      if bool_decide (url r = "/api/groups") then
        Fulfilled (JObj (<["results" := JStr "none"]> ∅))
      else Fulfilled payload_with_7
  | _ => Fulfilled JNull
  end.

(** A payload of mixed shape with a key the dialog does not know. *)
Definition mixed_payload : gmap string JsVal :=
  <["view" := JArr [user_record 1 "Ada" "ada@example.org"]]>
    (<["modify" := JObj (<["users" := JStr "everyone"]>
                         (<["groups" := JArr [group_record 2 "default"]]> ∅))]>
       (<["owner" := JNum 1]> ∅)).

(** Grants in which Ada, the author, and Bob may view. *)
Definition grants_with_author : GrantSet :=
  {| view := {| users := [sample_author; user_record 2 "Bob" "bob@example.org"];
                groups := [] |};
     modify := empty_access |}.

(** A dialog that has loaded before. *)
Definition loaded_world : World :=
  {| dialog := {| loading := false; grants := grants_with_author; allGroups := JNull |};
     trace := [SetLoading false] |}.

(** Grants whose view groups hold a [null]. *)
Definition grants_with_null_group : GrantSet :=
  {| view := {| users := []; groups := [JNull] |}; modify := empty_access |}.

(** Search results: the author, a granted user and a new one. *)
Definition sample_found : list JsVal :=
  [sample_author; user_record 2 "Bob" "bob@example.org";
   user_record 3 "Cy" "cy@example.org"].

(** * Properties *)

(** ** Values *)

Lemma strict_eq_refl (a : JsVal) : is_scalar a = true → strict_eq a a = true.
Proof.
  destruct a; simpl; intros H; try done.
  - by apply bool_decide_eq_true.
  - by apply Z.eqb_eq.
  - by apply bool_decide_eq_true.
Qed.

Lemma strict_eq_eq (a b : JsVal) : strict_eq a b = true → a = b.
Proof.
  destruct a, b; simpl; intros H; try done.
  - apply bool_decide_eq_true in H. by subst.
  - apply Z.eqb_eq in H. by subst.
  - apply bool_decide_eq_true in H. by subst.
Qed.

(** ** Normalisation *)

Lemma normalize_key_total (d : JsVal) (out : GrantSet) (key : AccessType) :
  truthy d = true → typeof d = "object" → is_Some (normalize_key d out key).
Proof.
  intros Ht Ho. unfold normalize_key.
  destruct d as [| | | | |items|fields]; try done; simpl.
  destruct (default JUndefined (fields !! key_of key)) as [| |b|n|s|its|fs];
    simpl; try done.
  - by destruct b.
  - by destruct (negb (n =? 0)).
  - by destruct (negb (bool_decide (s = EmptyString))).
Qed.

Lemma normalize_total (d : JsVal) : is_Some (normalizePermissionsShape d).
Proof.
  unfold normalizePermissionsShape.
  destruct (truthy d) eqn:Ht; simpl; [|done].
  case_bool_decide as Ho; simpl; [|done].
  destruct (normalize_key_total d empty_grants View Ht Ho) as [o1 H1].
  rewrite H1. simpl.
  destruct (normalize_key_total d o1 Modify Ht Ho) as [o2 H2].
  rewrite H2. done.
Qed.

(** A key the payload does not have leaves [out] as it is. *)
Lemma normalize_key_absent (d : JsVal) (out : GrantSet) (key : AccessType) :
  truthy d = true → has_key d (key_of key) = false →
  normalize_key d out key = Some out.
Proof.
  intros Ht Hk. unfold normalize_key.
  destruct d as [| | | | |items|fields]; try done.
  simpl in *. apply bool_decide_eq_false in Hk.
  destruct (fields !! key_of key) eqn:E; [exfalso; eauto|]. done.
Qed.

(** One run of the callback touches the entry of its own key only. *)
Lemma normalize_key_other (d : JsVal) (out out' : GrantSet) (key other : AccessType) :
  key ≠ other → normalize_key d out key = Some out' →
  access out' other = access out other.
Proof.
  intros Hne. unfold normalize_key.
  destruct (member d (key_of key)) as [val|]; simpl; [|done].
  destruct (negb (truthy val)); [by intros [= <-]|].
  destruct (isArray val).
  { intros [= <-]. by destruct key, other. }
  case_bool_decide; [|by intros [= <-]].
  destruct (member val "users") as [us|]; simpl; [|done].
  destruct (member val "groups") as [gs|]; simpl; [|done].
  intros [= <-]. by destruct key, other.
Qed.

(** A grant set, read back from the object it is, is itself. *)
Lemma normalize_to_js (gs : GrantSet) : normalizePermissionsShape (to_js gs) = Some gs.
Proof. by destruct gs as [[vu vg] [mu mg]]. Qed.

Lemma canonical_access_to_js (v : JsVal) :
  canonical_access v → ∃ a, v = access_to_js a.
Proof.
  intros (fields & us & gs & -> & Hdom & Hu & Hg).
  exists {| users := us; groups := gs |}. unfold access_to_js. simpl. f_equal.
  apply map_eq. intros k.
  destruct (decide (k = "users")) as [->|Hku]; [by rewrite Hu|].
  destruct (decide (k = "groups")) as [->|Hkg]; [by rewrite Hg|].
  rewrite lookup_insert_ne by done. rewrite lookup_insert_ne by done.
  rewrite lookup_empty. apply not_elem_of_dom. rewrite Hdom.
  intros [Hin|Hin]%elem_of_union; apply elem_of_singleton in Hin; done.
Qed.

Lemma canonical_shape_to_js (g : JsVal) :
  canonical_shape g ↔ ∃ gs, g = to_js gs.
Proof.
  split.
  - intros (fields & v & m & -> & Hdom & Hv & Hm & Cv & Cm).
    destruct (canonical_access_to_js v Cv) as [av ->].
    destruct (canonical_access_to_js m Cm) as [am ->].
    exists {| view := av; modify := am |}. unfold to_js. simpl. f_equal.
    apply map_eq. intros k.
    destruct (decide (k = "view")) as [->|Hkv]; [by rewrite Hv|].
    destruct (decide (k = "modify")) as [->|Hkm]; [by rewrite Hm|].
    rewrite lookup_insert_ne by done. rewrite lookup_insert_ne by done.
    rewrite lookup_empty. apply not_elem_of_dom. rewrite Hdom.
  intros [Hin|Hin]%elem_of_union; apply elem_of_singleton in Hin; done.
  - intros [[[vu vg] [mu mg]] ->]. unfold to_js, access_to_js. simpl.
    eexists _, _, _. split; [reflexivity|].
    split; [by rewrite !dom_insert_L, dom_empty_L; set_solver|].
    split; [reflexivity|]. split; [reflexivity|].
    split; eexists _, _, _; (split; [reflexivity|]);
      (split; [by rewrite !dom_insert_L, dom_empty_L; set_solver|]); done.
Qed.

(** C1: a legacy payload, whose [view] and [modify] values are arrays,
    normalises to those arrays as the users lists, in their order, with
    empty groups lists. *)
Theorem legacy_arrays_are_users (fields : gmap string JsVal) (vs ms : list JsVal) :
  fields !! "view" = Some (JArr vs) →
  fields !! "modify" = Some (JArr ms) →
  normalizePermissionsShape (JObj fields) =
    Some {| view := {| users := vs; groups := [] |};
            modify := {| users := ms; groups := [] |} |}.
Proof.
  intros Hv Hm. unfold normalizePermissionsShape. simpl.
  unfold normalize_key. simpl. rewrite Hv. simpl. rewrite Hm. reflexivity.
Qed.

(** C2: [null], [undefined] and [{}] normalise to the all-empty grant
    set; so does every payload that is not an object; a category key
    the payload lacks leaves that category empty; and no payload makes
    the function throw. *)
Theorem malformed_payload_is_empty (d : JsVal) (key : AccessType) :
  (normalizePermissionsShape JNull = Some empty_grants ∧
   normalizePermissionsShape JUndefined = Some empty_grants ∧
   normalizePermissionsShape (JObj ∅) = Some empty_grants) ∧
  (typeof d ≠ "object" → normalizePermissionsShape d = Some empty_grants) ∧
  (has_key d (key_of key) = false →
   ∃ gs, normalizePermissionsShape d = Some gs ∧ access gs key = empty_access) ∧
  is_Some (normalizePermissionsShape d).
Proof.
  split; [done|]. split; [|split; [|apply normalize_total]].
  - intros Ho. unfold normalizePermissionsShape.
    rewrite (bool_decide_eq_false_2 _ Ho). by rewrite orb_true_r.
  - intros Hk. destruct (normalize_total d) as [gs Hgs]. exists gs. split; [done|].
    revert Hgs. unfold normalizePermissionsShape.
    destruct (truthy d) eqn:Ht; simpl; [|by intros [= <-]; destruct key].
    case_bool_decide as Ho; simpl; [|by intros [= <-]; destruct key].
    destruct key.
    + rewrite (normalize_key_absent d _ View Ht Hk). simpl.
      destruct (normalize_key d empty_grants Modify) as [o2|] eqn:E2; simpl; [|done].
      intros [= <-]. by apply (normalize_key_other d empty_grants o2 Modify View).
    + destruct (normalize_key d empty_grants View) as [o1|] eqn:E1; simpl; [|done].
      rewrite (normalize_key_absent d _ Modify Ht Hk). simpl.
      intros [= <-]. by apply (normalize_key_other d empty_grants o1 View Modify).
Qed.

(** C3: normalising a payload of the current shape gives that payload
    back, and normalising a second time changes nothing. *)
Theorem normalize_idempotent (g d : JsVal) :
  (canonical_shape g → to_js <$> normalizePermissionsShape g = Some g) ∧
  (normalizePermissionsShape d ≫= (λ gs, normalizePermissionsShape (to_js gs))) =
    normalizePermissionsShape d.
Proof.
  split.
  - intros Hc. apply canonical_shape_to_js in Hc as [gs ->].
    by rewrite normalize_to_js.
  - destruct (normalizePermissionsShape d) as [gs|]; simpl; [|done].
    apply normalize_to_js.
Qed.

(** ** Selection filters *)

Lemma find_some_matches (p : JsVal → bool) (l : list JsVal) (x : JsVal) :
  x ∈ l → p x = true → ∃ y, List.find p l = Some y ∧ p y = true.
Proof.
  induction l as [|a l IH]; intros Hin Hp; [by apply not_elem_of_nil in Hin|].
  simpl. destruct (p a) eqn:Ea; [by exists a|].
  apply elem_of_cons in Hin as [->|Hin]; [congruence|]. by apply IH.
Qed.

(** A granted user with a scalar id is found by [find], and what is
    found carries that id. *)
Lemma find_granted_user (deep : JsVal → JsVal → bool) (l : list JsVal) (u uid : JsVal) :
  u ∈ l → member u "id" = Some uid → is_scalar uid = true → truthy uid = true →
  Lodash.get (Lodash.find deep l uid) "id" = uid.
Proof.
  intros Hin Hid Hs Ht.
  assert (Hm : Lodash.matches_id deep uid u = true).
  { unfold Lodash.matches_id. rewrite Hs, Hid, (strict_eq_refl uid Hs). simpl.
    by destruct uid. }
  destruct (find_some_matches _ l u Hin Hm) as (y & Hy & Hmy).
  unfold Lodash.find. rewrite Hy. simpl.
  unfold Lodash.matches_id in Hmy. rewrite Hs in Hmy.
  unfold Lodash.get. destruct (member y "id") as [v|]; [|done]. simpl.
  apply andb_true_iff in Hmy as [Hv _]. by apply strict_eq_eq.
Qed.

(** Where the id is truthy, a user on the list of an access type has
    the permission, so [shouldShowUser] hides the user. *)
Lemma granted_user_with_truthy_id (deep : JsVal → JsVal → bool) (author : JsVal)
    (grants : GrantSet) (type : AccessType) (u uid : JsVal) :
  readable author → u ∈ users (access grants type) →
  member u "id" = Some uid → is_scalar uid = true → truthy uid = true →
  userHasPermission deep author grants u type = Some true ∧
  shouldShowUser deep author grants type u = Some false.
Proof.
  intros [aid Ha] Hin Hid Hs Ht.
  assert (userHasPermission deep author grants u type = Some true) as H.
  { unfold userHasPermission. rewrite Hid, Ha. simpl.
    destruct (strict_eq uid aid); [done|].
    by rewrite (find_granted_user deep _ u uid Hin Hid Hs Ht), Ht. }
  split; [done|]. unfold shouldShowUser. by rewrite H.
Qed.

(** C4: a user whose id is the author's has the permission, for either
    access type and whatever the grant lists hold. *)
Theorem author_has_permission (deep : JsVal → JsVal → bool) (author : JsVal)
    (grants : GrantSet) (type : AccessType) (u uid aid : JsVal) :
  member u "id" = Some uid →
  member author "id" = Some aid →
  strict_eq uid aid = true →
  userHasPermission deep author grants u type = Some true.
Proof.
  intros Hu Ha He. unfold userHasPermission. rewrite Hu, Ha. simpl. by rewrite He.
Qed.

Lemma ids_of_readable (gs : list JsVal) :
  Forall readable gs → ids_of gs = Some (map group_id gs).
Proof.
  unfold ids_of. induction 1 as [|g gs [v Hv] _ IH]; [done|].
  unfold ids_of in IH. simpl. rewrite Hv. simpl. rewrite IH. simpl.
  unfold group_id. by rewrite Hv.
Qed.

Lemma filterM_readable (ids : list JsVal) (dir : list JsVal) :
  Forall readable dir →
  filterM (λ g, gid ← member g "id"; Some (negb (set_has ids gid))) dir =
    Some (List.filter (λ g, negb (set_has ids (group_id g))) dir).
Proof.
  induction 1 as [|g dir [v Hv] _ IH]; [done|].
  simpl. rewrite Hv, IH. simpl. unfold group_id. rewrite Hv. by simpl.
Qed.

Lemma set_has_elem (ids : list JsVal) (v : JsVal) :
  is_scalar v = true → v ∈ ids → set_has ids v = true.
Proof.
  intros Hs Hin. unfold set_has. apply existsb_exists. exists v.
  split; [by apply list_elem_of_In|]. by apply strict_eq_refl.
Qed.

(** C6: [availableGroups] is the group directory without the groups
    whose id is granted under either category; a group granted under
    [view] is not in it. *)
Theorem availableGroups_excludes_granted (grants : GrantSet) (dir : list JsVal) :
  Forall readable (groups (view grants)) →
  Forall readable (groups (modify grants)) →
  Forall readable dir →
  availableGroups grants (JArr dir) =
    Some (List.filter (λ g, negb (set_has (granted_ids grants) (group_id g))) dir) ∧
  (∀ g, g ∈ groups (view grants) ++ groups (modify grants) →
        is_scalar (group_id g) = true →
        ∀ offered, availableGroups grants (JArr dir) = Some offered →
                   (g ∉ offered) ∧
                   (∀ g', g' ∈ offered →
                          same_value_zero (group_id g') (group_id g) = false)).
Proof.
  intros Hv Hm Hd.
  assert (availableGroups grants (JArr dir) =
    Some (List.filter (λ g, negb (set_has (granted_ids grants) (group_id g))) dir)) as Heq.
  { unfold availableGroups. rewrite (ids_of_readable _ Hv), (ids_of_readable _ Hm).
    simpl. rewrite filterM_readable by done.
    unfold granted_ids. by rewrite map_app. }
  split; [done|]. intros g Hg Hs offered Ho. rewrite Heq in Ho. injection Ho as <-.
  assert (group_id g ∈ granted_ids grants) as Hin.
  { unfold granted_ids. by apply list_elem_of_fmap_2. }
  split.
  - intros Hin'. apply list_elem_of_In, filter_In in Hin' as [_ Hf].
    by rewrite (set_has_elem _ _ Hs Hin) in Hf.
  - intros g' Hin'. apply list_elem_of_In, filter_In in Hin' as [_ Hf].
    destruct (same_value_zero (group_id g') (group_id g)) eqn:E; [|done].
    apply strict_eq_eq in E. rewrite E in Hf.
    by rewrite (set_has_elem _ _ Hs Hin) in Hf.
Qed.

(** ** Loading and the commands *)

Lemma requests_of_app (l1 l2 : list Event) :
  requests_of (l1 ++ l2) = requests_of l1 ++ requests_of l2.
Proof.
  induction l1 as [|e l1 IH]; [done|].
  destruct e; simpl; by rewrite IH.
Qed.

Ltac run_eff :=
  unfold finally_, notify_error, axios_get, axios_post, axios_delete;
  unfold mbind, eff_mbind, eff_bind, eff_ret, setLoading, setGrants, setAllGroups,
    emit, axios; simpl.

(** The group fetch sends one request and never rejects. *)
Lemma listAllGroups_run (reply : list Request → Request → Settled JsVal) (w : World) :
  ∃ gl, listAllGroups reply w =
          (Fulfilled gl,
           {| dialog := dialog w; trace := trace w ++ [Requested groups_request] |}).
Proof.
  unfold listAllGroups. run_eff.
  destruct (reply (requests_of (trace w)) _) as [res|]; simpl; [|by eexists].
  destruct (isArray res); simpl; [by eexists|].
  destruct (member res "results"); simpl; by eexists.
Qed.

(** One run of the chain of [loadAll]: it is fulfilled, it stores the
    normalised payload (the empty one when the fetch failed) and the
    group list, and it ends with [loading] off. *)
Lemma loadAll_chain_run (aclUrl : string)
    (reply : list Request → Request → Settled JsVal) (w : World) :
  ∃ gs gl,
    loadAll_chain aclUrl reply w =
      (Fulfilled tt,
       {| dialog := {| loading := false; grants := gs; allGroups := gl |};
          trace := trace w ++ reload_events aclUrl gs gl |}) ∧
    match reply (requests_of (trace w)) (acl_request aclUrl) with
    | Fulfilled perm => normalizePermissionsShape perm = Some gs
    | Rejected => gs = empty_grants
    end.
Proof.
  unfold loadAll_chain, reload_events. run_eff.
  rewrite requests_of_app, app_nil_r. fold (acl_request aclUrl).
  set (w1 := {| dialog := _; trace := (trace w ++ [SetLoading true]) ++ _ |}).
  destruct (reply (requests_of (trace w)) (acl_request aclUrl)) as [perm|] eqn:Er; simpl.
  - destruct (listAllGroups_run reply w1) as [gl Hgl]. rewrite Hgl. simpl.
    destruct (normalize_total perm) as [gs Hgs]. rewrite Hgs. simpl.
    exists gs, gl. split; [|done]. subst w1. simpl.
    by rewrite <- !app_assoc.
  - destruct (listAllGroups_run reply w1) as [gl Hgl]. rewrite Hgl. simpl.
    change (normalizePermissionsShape (JObj ∅)) with (Some empty_grants). simpl.
    exists empty_grants, gl. split; [|done]. subst w1. simpl.
    by rewrite <- !app_assoc.
Qed.

Lemma loadAll_run (aclUrl : string)
    (reply : list Request → Request → Settled JsVal) (w : World) :
  ∃ gs gl,
    loadAll aclUrl reply w =
      (tt,
       {| dialog := {| loading := false; grants := gs; allGroups := gl |};
          trace := trace w ++ LoadAllCalled :: reload_events aclUrl gs gl |}) ∧
    match reply (requests_of (trace w)) (acl_request aclUrl) with
    | Fulfilled perm => normalizePermissionsShape perm = Some gs
    | Rejected => gs = empty_grants
    end.
Proof.
  unfold loadAll. unfold mbind, eff_mbind, eff_bind, emit, eff_ret.
  set (w0 := {| dialog := dialog w; trace := trace w ++ [LoadAllCalled] |}).
  destruct (loadAll_chain_run aclUrl reply w0) as (gs & gl & Hrun & Hgs).
  rewrite Hrun. exists gs, gl. subst w0. simpl in *.
  rewrite requests_of_app, app_nil_r in Hgs. split; [|done].
  by rewrite <- app_assoc.
Qed.

Lemma normalize_key_users (d : JsVal) (out out' : GrantSet) (key : AccessType) :
  users (access out key) = [] →
  normalize_key d out key = Some out' →
  users (access out' key) = listed_users d key.
Proof.
  intros Hout. unfold normalize_key.
  destruct d as [| |b|n|s|items|fields]; simpl; try done;
    try (by intros [= <-]).
  destruct (fields !! key_of key) as [val|] eqn:Ev; simpl; [|by intros [= <-]].
  destruct val as [| |b|n|s|items|entry]; simpl; try (by intros [= <-]).
  - by destruct b; simpl; intros [= <-].
  - by destruct (negb (n =? 0)); simpl; intros [= <-].
  - by destruct (negb (bool_decide (s = EmptyString))); simpl; intros [= <-].
  - intros [= <-]. by destruct key.
  - intros [= <-].
    destruct (entry !! "users") as [us|]; simpl; [|by destruct key].
    destruct us; by destruct key.
Qed.

(** The users list normalisation stores is the one the payload lists. *)
Lemma normalize_listed_users (perm : JsVal) (gs : GrantSet) (t : AccessType) :
  normalizePermissionsShape perm = Some gs →
  users (access gs t) = listed_users perm t.
Proof.
  unfold normalizePermissionsShape.
  destruct (truthy perm) eqn:Ht; simpl.
  2: { intros [= <-]. destruct perm; try done; by destruct t. }
  case_bool_decide as Ho; simpl.
  2: { intros [= <-]. destruct perm; try done; by destruct t. }
  destruct (normalize_key perm empty_grants View) as [o1|] eqn:E1; simpl; [|done].
  destruct (normalize_key perm o1 Modify) as [o2|] eqn:E2; simpl; [|done].
  intros [= <-]. destruct t.
  - rewrite (normalize_key_other perm o1 o2 Modify View) by done.
    by apply (normalize_key_users perm empty_grants).
  - apply (normalize_key_users perm o1); [|done].
    by rewrite (normalize_key_other perm empty_grants o1 View Modify).
Qed.

Lemma command_run (aclUrl : string) (reply : list Request → Request → Settled JsVal)
    (c : Command) (t : AccessType) (id : JsVal) :
  run_command aclUrl reply c t id =
    reload_or_report aclUrl reply (axios reply (command_request aclUrl c t id))
                     (command_error c).
Proof. by destruct c. Qed.

(** C7: when the request of a grant or revoke command succeeds, the
    command calls [loadAll] once and writes the grants only through that
    reload; the grants are then the normalised payload of the reload,
    so a user the payload lists under a category is on that category's
    list. *)
Theorem command_success_reloads_once (aclUrl : string)
    (reply : list Request → Request → Settled JsVal)
    (c : Command) (t : AccessType) (id : JsVal) (w : World) (posted : JsVal) :
  reply (requests_of (trace w)) (command_request aclUrl c t id) = Fulfilled posted →
  ∃ gs gl,
    let added := Requested (command_request aclUrl c t id)
                 :: LoadAllCalled :: reload_events aclUrl gs gl in
    run_command aclUrl reply c t id w =
      (Fulfilled (),
       {| dialog := {| loading := false; grants := gs; allGroups := gl |};
          trace := trace w ++ added |}) ∧
    loadAll_calls added = 1%nat ∧
    grants_writes added = [gs] ∧
    (∀ perm,
       reply (requests_of (trace w) ++ [command_request aclUrl c t id])
             (acl_request aclUrl) = Fulfilled perm →
       normalizePermissionsShape perm = Some gs ∧
       (∀ type u, u ∈ listed_users perm type → u ∈ users (access gs type))).
Proof.
  intros Hpost. rewrite command_run. unfold reload_or_report.
  unfold mbind, eff_mbind, eff_bind, axios. rewrite Hpost. simpl.
  unfold mbind, eff_mbind, eff_bind.
  set (w1 := {| dialog := dialog w; trace := trace w ++ [_] |}).
  destruct (loadAll_run aclUrl reply w1) as (gs & gl & Hrun & Hgs).
  rewrite Hrun. exists gs, gl. subst w1. simpl in *.
  rewrite requests_of_app in Hgs. simpl in Hgs.
  split; [by rewrite <- app_assoc|]. split; [done|]. split; [done|].
  intros perm Hperm. rewrite Hperm in Hgs. split; [done|].
  intros type u Hu. by rewrite (normalize_listed_users perm gs type Hgs).
Qed.

Lemma notifications_app (l1 l2 : list Event) :
  notifications (l1 ++ l2) = notifications l1 ++ notifications l2.
Proof.
  induction l1 as [|e l1 IH]; [done|].
  destruct e; simpl; by rewrite IH.
Qed.

(** C8: when the fetch of the permission payload fails, the chain of
    [loadAll] is still fulfilled, the grants are the all-empty grant
    set, which is what [{}] normalises to, nothing is reported, and
    [loading] is off at the end. *)
Theorem loadAll_fail_soft (aclUrl : string)
    (reply : list Request → Request → Settled JsVal) (w : World) :
  reply (requests_of (trace w)) (acl_request aclUrl) = Rejected →
  fst (loadAll_chain aclUrl reply w) = Fulfilled () ∧
  grants (dialog (snd (loadAll_chain aclUrl reply w))) = empty_grants ∧
  grants (dialog (snd (loadAll aclUrl reply w))) = empty_grants ∧
  loading (dialog (snd (loadAll aclUrl reply w))) = false ∧
  notifications (trace (snd (loadAll aclUrl reply w))) = notifications (trace w) ∧
  normalizePermissionsShape (JObj ∅) = Some empty_grants.
Proof.
  intros Hfail.
  destruct (loadAll_chain_run aclUrl reply w) as (gs & gl & Hrun & Hgs).
  destruct (loadAll_run aclUrl reply w) as (gs' & gl' & Hrun' & Hgs').
  rewrite Hfail in Hgs, Hgs'. subst gs gs'. rewrite Hrun, Hrun'. simpl.
  repeat split. rewrite notifications_app. simpl. by rewrite app_nil_r.
Qed.

(** C9: when the request of a grant or revoke command fails, the
    command reports the error of its kind once and is fulfilled; it
    sends nothing more, does not call [loadAll], and leaves the dialog
    state as it was. *)
Theorem command_failure_reports_once (aclUrl : string)
    (reply : list Request → Request → Settled JsVal)
    (c : Command) (t : AccessType) (id : JsVal) (w : World) :
  reply (requests_of (trace w)) (command_request aclUrl c t id) = Rejected →
  let added := [Requested (command_request aclUrl c t id); Notified (command_error c)] in
  run_command aclUrl reply c t id w =
    (Fulfilled (), {| dialog := dialog w; trace := trace w ++ added |}) ∧
  notifications added = [command_error c] ∧
  requests_of added = [command_request aclUrl c t id] ∧
  loadAll_calls added = 0%nat ∧
  grants_writes added = [].
Proof.
  intros Hfail. rewrite command_run. unfold reload_or_report.
  unfold mbind, eff_mbind, eff_bind, axios. rewrite Hfail. simpl.
  unfold mbind, eff_mbind, eff_bind, notify_error, emit, eff_ret. simpl.
  by rewrite <- app_assoc.
Qed.

(** ** The debounced search *)

Section DebounceFacts.

Import Debounce.

Variable wait : Z.
Hypothesis wait_pos : 0 < wait.

Ltac timer_cases :=
  repeat (case_bool_decide; simpl; try lia).

Ltac decide_timers :=
  repeat (simpl; first [ rewrite bool_decide_eq_true_2 by lia
                       | rewrite bool_decide_eq_false_2 by lia ]).

(** While the latest call is less than [wait] old, time passing runs no
    search, and the next call leaves a timer armed. *)
Lemma keystroke_arms (t : Z) (term : string) (s : Debounced) :
  quiet_start wait t s →
  ∃ s1, advance wait t s = (s1, []) ∧ armed wait t term (debounced wait t term s1).
Proof.
  unfold quiet_start, advance, run_timer, armed.
  destruct s as [args called inv timer]. simpl.
  destruct timer as [due|]; simpl.
  - intros (c & -> & Hdue & Ht).
    case_bool_decide as Hd; simpl.
    + unfold timerExpired, shouldInvoke, remainingWait. simpl. timer_cases.
      eexists. split; [reflexivity|]. unfold debounced. simpl.
      split; [done|]. split; [done|]. eexists. split; [reflexivity|]. lia.
    + rewrite bool_decide_eq_false_2 by done.
      eexists. split; [reflexivity|]. unfold debounced. simpl.
      split; [done|]. split; [done|]. eexists. split; [reflexivity|]. lia.
  - intros _. eexists. split; [reflexivity|]. unfold debounced. simpl.
    destruct (shouldInvoke wait t _); simpl;
      (split; [done|]); (split; [done|]); eexists; (split; [reflexivity|]); lia.
Qed.

Lemma armed_quiet (t t' : Z) (term : string) (s : Debounced) :
  armed wait t term s → t ≤ t' < t + wait → quiet_start wait t' s.
Proof.
  intros (_ & Hc & due & Hd & Hdue) Ht. unfold quiet_start. rewrite Hd.
  exists t. split; [done|]. lia.
Qed.

(** Keystrokes that follow an armed call within the quiet interval run
    no search and leave the last of them armed. *)
Lemma typing_within_interval (keys : list (Z * string)) (t : Z) (term : string)
    (s : Debounced) :
  armed wait t term s →
  within_quiet_interval wait ((t, term) :: keys) →
  ∃ s' t' term',
    typing wait keys s = (s', []) ∧
    last ((t, term) :: keys) = Some (t', term') ∧
    armed wait t' term' s'.
Proof.
  revert t term s. induction keys as [|[t2 term2] keys IH]; intros t term s Ha Hq.
  - exists s, t, term. by simpl.
  - destruct Hq as [Ht Hq].
    destruct (keystroke_arms t2 term2 s (armed_quiet t t2 term s Ha Ht))
      as (s1 & Hadv & Ha2).
    destruct (IH t2 term2 _ Ha2 Hq) as (s' & t' & term' & Htyp & Hlast & Ha').
    exists s', t', term'. split; [|split; [|done]].
    + simpl. rewrite Hadv, Htyp. done.
    + by rewrite last_cons_cons.
Qed.

(** Once [wait] has passed since an armed call, the search for its term
    has run, once, [wait] after the call. *)
Lemma armed_fires (t : Z) (term : string) (s : Debounced) (until : Z) :
  armed wait t term s → t + wait ≤ until →
  snd (advance wait until s) = [(t + wait, term)].
Proof.
  destruct s as [args called inv timer]. unfold armed. simpl.
  intros (-> & -> & due & -> & Hdue) Hu.
  unfold advance, run_timer. simpl.
  rewrite bool_decide_eq_true_2 by lia.
  unfold timerExpired, shouldInvoke, remainingWait. simpl.
  destruct (decide (due = t + wait)) as [->|Hne].
  - rewrite bool_decide_eq_true_2 by lia. simpl. done.
  - rewrite bool_decide_eq_false_2 by lia.
    rewrite bool_decide_eq_false_2 by lia. simpl.
    rewrite bool_decide_eq_true_2 by lia.
    unfold timerExpired, shouldInvoke. simpl.
    rewrite bool_decide_eq_true_2 by lia. simpl.
    do 2 f_equal. lia.
Qed.

Lemma searches_collapse (s0 : Debounced) (t1 : Z) (term1 : string)
    (rest : list (Z * string)) (t : Z) (term : string) (until : Z) :
  quiet_start wait t1 s0 →
  within_quiet_interval wait ((t1, term1) :: rest) →
  last ((t1, term1) :: rest) = Some (t, term) →
  t + wait ≤ until →
  searches wait ((t1, term1) :: rest) until s0 = [(t + wait, term)].
Proof.
  intros Hq Hw Hlast Hu. unfold searches. simpl.
  destruct (keystroke_arms t1 term1 s0 Hq) as (s1 & Hadv & Ha).
  destruct (typing_within_interval rest t1 term1 _ Ha Hw)
    as (s' & t' & term' & Htyp & Hlast' & Ha').
  rewrite Hadv, Htyp. simpl.
  rewrite Hlast in Hlast'. injection Hlast' as <- <-.
  pose proof (armed_fires t term s' until Ha' Hu) as Hf.
  destruct (advance wait until s') as [s2 out]. by simpl in Hf.
Qed.

(** Time passing does to the state machine what it does to the pending
    lookup of the specification. *)
Lemma advance_tracks (from now : Z) (s : Debounced) (p : Pending) :
  tracks wait from s p →
  ∃ s' p' out,
    advance wait now s = (s', out) ∧ elapse now p = (p', out) ∧
    tracks wait from s' p' ∧
    match timerId s' with Some due => now < due | None => True end.
Proof.
  destruct s as [args called inv timer]. unfold tracks, advance, run_timer, elapse.
  destruct p as [[lookup_due term]|]; simpl.
  - intros (t & due & -> & -> & -> & Hdue & -> & Hfrom). simpl.
    unfold timerExpired, shouldInvoke, remainingWait. simpl.
    destruct (decide (due ≤ now)) as [Hd|Hd];
      [destruct (decide (due = t + wait)) as [->|Hne];
       [|replace (due + (wait - (due - t))) with (t + wait) by lia;
         destruct (decide (t + wait ≤ now)) as [Hw|Hw]]|];
      decide_timers; unfold timerExpired, shouldInvoke; decide_timers;
      eexists _, _, _; (split; [reflexivity|]); (split; [reflexivity|]);
      simpl; try done.
    + split; [|lia]. exists t, (t + wait). repeat split; try done; lia.
    + split; [|lia]. exists t, due. repeat split; try done; lia.
  - intros ->. eexists _, _, _. split; [reflexivity|]. split; [reflexivity|]. done.
Qed.

(** A call does to the state machine what a keystroke does to the
    pending lookup. *)
Lemma debounced_tracks (from t : Z) (term : string) (s : Debounced) (p : Pending) :
  tracks wait from s p → from ≤ t →
  match timerId s with Some due => t < due | None => True end →
  tracks wait t (debounced wait t term s) (schedule wait t term p).
Proof.
  destruct s as [args called inv timer]. unfold tracks, debounced, schedule. simpl.
  destruct p as [[lookup_due term0]|]; simpl.
  - intros (t0 & due & -> & -> & -> & Hdue & -> & Hfrom) Hle Hsettled. simpl.
    exists t, due. repeat split; try done; lia.
  - intros -> Hle _. simpl.
    destruct (shouldInvoke wait t _); simpl;
      exists t, (t + wait); repeat split; try done; lia.
Qed.

Lemma typing_tracks (keys : list (Z * string)) (from : Z) (s : Debounced) (p : Pending) :
  in_order from keys → tracks wait from s p →
  ∃ s' p' out from',
    typing wait keys s = (s', out) ∧ scheduled_typing wait keys p = (p', out) ∧
    tracks wait from' s' p'.
Proof.
  revert from s p. induction keys as [|[t term] keys IH]; intros from s p Hord Htr.
  - exists s, p, [], from. by simpl.
  - destruct Hord as [Hle Hord].
    destruct (advance_tracks from t s p Htr) as (s1 & p1 & out1 & Ha & He & Htr1 & Hs1).
    pose proof (debounced_tracks from t term s1 p1 Htr1 Hle Hs1) as Htr2.
    destruct (IH t _ _ Hord Htr2) as (s' & p' & out2 & from' & Ht & Hst & Htr').
    exists s', p', (out1 ++ out2), from'. simpl. rewrite Ha, He, Ht, Hst. done.
Qed.

(** The state machine issues the searches the specification's pending
    lookup issues, for keystrokes in the order of their times. *)
Lemma searches_as_scheduled (keys : list (Z * string)) (from until : Z)
    (s : Debounced) (p : Pending) :
  in_order from keys → tracks wait from s p →
  searches wait keys until s = scheduled_searches wait keys until p.
Proof.
  intros Hord Htr. unfold searches, scheduled_searches.
  destruct (typing_tracks keys from s p Hord Htr)
    as (s' & p' & out & from' & -> & -> & Htr').
  destruct (advance_tracks from' until s' p' Htr') as (s2 & p2 & out2 & -> & -> & _).
  done.
Qed.

Lemma searches_fresh_as_scheduled (keys : list (Z * string)) (from until : Z) :
  in_order from keys →
  searches wait keys until fresh = scheduled_searches wait keys until None.
Proof. intros Hord. by apply (searches_as_scheduled keys from). Qed.

(** After [advance] no timer is left that was due by [now]. *)
Lemma advance_settles (now : Z) (s : Debounced) :
  match timerId (fst (advance wait now s)) with
  | None => True
  | Some due => now < due
  end.
Proof.
  destruct s as [args called inv timer]. unfold advance, run_timer. simpl.
  destruct timer as [due|]; simpl; [|done].
  case_bool_decide as Hd; simpl.
  - unfold timerExpired, shouldInvoke, remainingWait. simpl.
    destruct called as [c|]; simpl.
    + case_bool_decide; simpl.
      { destruct args; simpl; done. }
      case_bool_decide; simpl.
      { destruct args; simpl; done. }
      case_bool_decide; simpl; [|lia].
      rewrite bool_decide_eq_true_2 by lia. simpl.
      destruct args; simpl; done.
    + destruct args; simpl; done.
  - rewrite bool_decide_eq_false_2 by done. simpl. lia.
Qed.

End DebounceFacts.

(** C10: keystrokes that each come within the 200 time units of the one
    before them issue one search, for the last term, 200 time units
    after the last keystroke; a lookup pending when they start is
    superseded with the others. *)
Theorem debounce_collapses (s0 : Debounce.Debounced) (t1 : Z) (term1 : string)
    (rest : list (Z * string)) (t : Z) (term : string) (until : Z) :
  Debounce.quiet_start Debounce.DEBOUNCE_SEARCH_DURATION t1 s0 →
  Debounce.within_quiet_interval Debounce.DEBOUNCE_SEARCH_DURATION ((t1, term1) :: rest) →
  last ((t1, term1) :: rest) = Some (t, term) →
  t + Debounce.DEBOUNCE_SEARCH_DURATION ≤ until →
  Debounce.searches Debounce.DEBOUNCE_SEARCH_DURATION ((t1, term1) :: rest) until s0 =
    [(t + Debounce.DEBOUNCE_SEARCH_DURATION, term)].
Proof. by apply searches_collapse. Qed.

(** ** The claims at sample inputs *)

Lemma legacy_arrays_are_users_witness :
  normalizePermissionsShape (JObj legacy_payload) =
    Some {| view := {| users := [user_record 1 "Ada" "ada@example.org";
                                 user_record 2 "Bob" "bob@example.org"];
                       groups := [] |};
            modify := {| users := []; groups := [] |} |}.
Proof. apply (legacy_arrays_are_users legacy_payload); reflexivity. Defined.

Lemma malformed_payload_is_empty_witness :
  normalizePermissionsShape (JNum 5) = Some empty_grants ∧
  ∃ gs, normalizePermissionsShape (JObj (<["modify" := JArr [user_zero]]> ∅)) = Some gs ∧
        access gs View = empty_access.
Proof.
  split.
  - apply (proj1 (proj2 (malformed_payload_is_empty (JNum 5) View))). discriminate.
  - apply (proj1 (proj2 (proj2
      (malformed_payload_is_empty (JObj (<["modify" := JArr [user_zero]]> ∅)) View)))).
    reflexivity.
Defined.

Lemma normalize_idempotent_witness :
  to_js <$> normalizePermissionsShape payload_with_7 = Some payload_with_7.
Proof.
  apply (proj1 (normalize_idempotent payload_with_7 JNull)).
  apply canonical_shape_to_js. eexists. reflexivity.
Defined.

Lemma author_has_permission_witness :
  userHasPermission no_deep_match sample_author empty_grants
    (user_record 1 "Ada" "ada@example.org") Modify = Some true.
Proof.
  apply (author_has_permission no_deep_match sample_author empty_grants Modify
           (user_record 1 "Ada" "ada@example.org") (JNum 1) (JNum 1));
    reflexivity.
Defined.

Lemma availableGroups_excludes_granted_witness :
  availableGroups sample_group_grants (JArr sample_directory) =
    Some [group_record 2 "default"].
Proof.
  apply (proj1 (availableGroups_excludes_granted sample_group_grants sample_directory
                  ltac:(repeat constructor; by eexists)
                  ltac:(repeat constructor; by eexists)
                  ltac:(repeat constructor; by eexists))).
Defined.

Lemma command_success_reloads_once_witness :
  ∃ gs gl,
    fst (grantUser sample_url sample_reply Modify (JNum 7) initial_world) = Fulfilled () ∧
    grants (dialog (snd (grantUser sample_url sample_reply Modify (JNum 7) initial_world)))
      = gs ∧
    user_record 7 "Eve" "eve@example.org" ∈ users (modify gs) ∧
    loadAll_calls (trace (snd (grantUser sample_url sample_reply Modify (JNum 7)
                                 initial_world))) = 1%nat ∧
    allGroups (dialog (snd (grantUser sample_url sample_reply Modify (JNum 7)
                              initial_world))) = gl.
Proof.
  destruct (command_success_reloads_once sample_url sample_reply GrantUser Modify
              (JNum 7) initial_world JNull eq_refl)
    as (gs & gl & Hrun & Hcalls & _ & Hperm).
  exists gs, gl. simpl in Hrun. rewrite Hrun. simpl.
  split; [reflexivity|]. split; [reflexivity|]. split; [|split; [exact Hcalls|reflexivity]].
  apply (proj2 (Hperm payload_with_7 eq_refl) Modify).
  apply list_elem_of_here.
Defined.

Lemma loadAll_fail_soft_witness :
  grants (dialog (snd (loadAll sample_url failing_reply initial_world))) = empty_grants ∧
  loading (dialog (snd (loadAll sample_url failing_reply initial_world))) = false.
Proof.
  destruct (loadAll_fail_soft sample_url failing_reply initial_world eq_refl)
    as (_ & _ & Hg & Hl & _).
  exact (conj Hg Hl).
Defined.

Lemma command_failure_reports_once_witness :
  revokeGroup sample_url failing_reply View (JNum 3) initial_world =
    (Fulfilled (),
     {| dialog := initial_dialog;
        trace := [Requested (command_request sample_url RevokeGroup View (JNum 3));
                  Notified "Could not remove permission from the group"] |}).
Proof.
  exact (proj1 (command_failure_reports_once sample_url failing_reply RevokeGroup View
                  (JNum 3) initial_world eq_refl)).
Defined.

Lemma debounce_collapses_witness :
  Debounce.searches Debounce.DEBOUNCE_SEARCH_DURATION Debounce.typing_ali 1000
    Debounce.fresh = [(320, "ali")].
Proof.
  apply (debounce_collapses Debounce.fresh 0 "a" [(50, "al"); (120, "ali")] 120 "ali" 1000).
  - exact I.
  - unfold Debounce.DEBOUNCE_SEARCH_DURATION. simpl. lia.
  - reflexivity.
  - unfold Debounce.DEBOUNCE_SEARCH_DURATION. lia.
Defined.

(** ** The user filter on falsy ids *)

(** C5, at a granted user with the id 0: [find] returns the user's
    entry, [get] reads the id 0 from it, [!!0] is false; so the user,
    who is on the view list, counts as not having the permission and is
    offered by the view-category search. *)
Theorem granted_user_zero_is_offered (deep : JsVal → JsVal → bool) :
  user_zero ∈ users (view grants_with_user_zero) ∧
  Lodash.find deep (users (view grants_with_user_zero)) (JNum 0) = user_zero ∧
  userHasPermission deep sample_author grants_with_user_zero user_zero View = Some false ∧
  offeredUsers (shouldShowUser deep sample_author grants_with_user_zero View)
               [user_zero; sample_author] = Some [user_zero].
Proof.
  split; [apply list_elem_of_here|]. split; [reflexivity|].
  split; reflexivity.
Qed.

(** The group filter, which asks the set of granted ids, does exclude a
    granted group with the id 0. *)
Lemma granted_group_zero_is_excluded :
  availableGroups grants_with_user_zero
    (JArr [group_record 0 "everyone"; group_record 2 "default"]) =
    Some [group_record 2 "default"].
Proof. reflexivity. Qed.

(** * Further properties *)

(** ** Normalisation, one category at a time *)

Lemma access_set_access (key : AccessType) (a : AccessList) (gs : GrantSet) :
  access (set_access key a gs) key = a.
Proof. by destruct key. Qed.

(** What a run of the callback leaves under its key depends on [out]
    only through that key. *)
Lemma normalize_key_local (d : JsVal) (out out' r : GrantSet) (key : AccessType) :
  access out key = access out' key →
  normalize_key d out key = Some r →
  ∃ r', normalize_key d out' key = Some r' ∧ access r' key = access r key.
Proof.
  intros Hacc. unfold normalize_key.
  destruct (member d (key_of key)) as [val|]; simpl; [|done].
  destruct (negb (truthy val)); [intros [= <-]; by eexists|].
  destruct (isArray val).
  { intros [= <-]. eexists. split; [done|].
    unfold set_users. by rewrite !access_set_access, Hacc. }
  case_bool_decide; [|intros [= <-]; by eexists].
  destruct (member val "users") as [us|]; simpl; [|done].
  destruct (member val "groups") as [gs|]; simpl; [|done].
  intros [= <-]. eexists. split; [done|].
  unfold set_groups, set_users. by rewrite !access_set_access.
Qed.

(** The entry of a category in the normal form of an object payload is
    the one the callback builds for that category alone. *)
Lemma normalize_obj_access (fields : gmap string JsVal) (gs : GrantSet)
    (key : AccessType) :
  normalizePermissionsShape (JObj fields) = Some gs →
  ∃ o, normalize_key (JObj fields) empty_grants key = Some o ∧
       access gs key = access o key.
Proof.
  unfold normalizePermissionsShape. simpl.
  destruct (normalize_key (JObj fields) empty_grants View) as [o1|] eqn:E1;
    simpl; [|done].
  destruct (normalize_key (JObj fields) o1 Modify) as [o2|] eqn:E2; simpl; [|done].
  intros [= <-]. destruct key.
  - exists o1. split; [done|].
    by apply (normalize_key_other (JObj fields) o1 o2 Modify View).
  - assert (access o1 Modify = access empty_grants Modify) as Hacc.
    { by apply (normalize_key_other (JObj fields) empty_grants o1 View Modify). }
    destruct (normalize_key_local _ o1 empty_grants o2 Modify Hacc E2) as (o & Ho & Ha).
    exists o. by split.
Qed.

(** X1: the normal form of an object payload depends on its [view] and
    [modify] properties only; other keys are dropped. *)
Theorem normalize_ignores_other_keys (fields fields' : gmap string JsVal) :
  fields !! "view" = fields' !! "view" →
  fields !! "modify" = fields' !! "modify" →
  normalizePermissionsShape (JObj fields) = normalizePermissionsShape (JObj fields').
Proof.
  intros Hv Hm. unfold normalizePermissionsShape. simpl.
  unfold normalize_key. simpl. by rewrite Hv, Hm.
Qed.

(** X2: a category given as an object yields its [users] and [groups]
    fields where they are arrays and the empty list where they are
    missing or anything else, each field on its own and whatever the
    other category holds. *)
Theorem normalize_object_entry (fields entry : gmap string JsVal) (key : AccessType) :
  fields !! key_of key = Some (JObj entry) →
  ∃ gs, normalizePermissionsShape (JObj fields) = Some gs ∧
        users (access gs key) = elements (default JUndefined (entry !! "users")) ∧
        groups (access gs key) = elements (default JUndefined (entry !! "groups")).
Proof.
  intros Hk. destruct (normalize_total (JObj fields)) as [gs Hgs].
  exists gs. split; [done|].
  destruct (normalize_obj_access fields gs key Hgs) as (o & Ho & ->).
  revert Ho. unfold normalize_key. simpl. rewrite Hk. simpl.
  intros [= <-]. unfold set_groups, set_users. rewrite !access_set_access. simpl.
  split.
  - by destruct (default JUndefined (entry !! "users")).
  - by destruct (default JUndefined (entry !! "groups")).
Qed.

(** X3: a category given as a scalar, such as a number, a string or a
    boolean, is ignored: its users and groups stay empty. *)
Theorem normalize_scalar_entry (fields : gmap string JsVal) (key : AccessType)
    (v : JsVal) :
  fields !! key_of key = Some v → is_scalar v = true →
  ∃ gs, normalizePermissionsShape (JObj fields) = Some gs ∧
        access gs key = empty_access.
Proof.
  intros Hk Hs. destruct (normalize_total (JObj fields)) as [gs Hgs].
  exists gs. split; [done|].
  destruct (normalize_obj_access fields gs key Hgs) as (o & Ho & ->).
  revert Ho. unfold normalize_key. simpl. rewrite Hk. simpl.
  destruct v as [| |b|n|s| |]; try done; simpl.
  - intros [= <-]. by destruct key.
  - intros [= <-]. by destruct key.
  - destruct b; simpl; intros [= <-]; by destruct key.
  - destruct (negb (n =? 0)); simpl; intros [= <-]; by destruct key.
  - destruct (negb (bool_decide (s = EmptyString))); simpl; intros [= <-]; by destruct key.
Qed.

(** X4: a category given as an array yields that array as its users
    and no groups, whatever shape the other category has. *)
Theorem normalize_array_entry (fields : gmap string JsVal) (key : AccessType)
    (us : list JsVal) :
  fields !! key_of key = Some (JArr us) →
  ∃ gs, normalizePermissionsShape (JObj fields) = Some gs ∧
        access gs key = {| users := us; groups := [] |}.
Proof.
  intros Hk. destruct (normalize_total (JObj fields)) as [gs Hgs].
  exists gs. split; [done|].
  destruct (normalize_obj_access fields gs key Hgs) as (o & Ho & ->).
  revert Ho. unfold normalize_key. simpl. rewrite Hk. simpl.
  intros [= <-]. unfold set_users. rewrite access_set_access. by destruct key.
Qed.

(** ** Loading, case by case *)

Lemma listAllGroups_value (reply : list Request → Request → Settled JsVal) (w : World) :
  fst (listAllGroups reply w) =
    Fulfilled (directory_of (reply (requests_of (trace w)) groups_request)).
Proof.
  unfold listAllGroups. run_eff. fold groups_request.
  destruct (reply (requests_of (trace w)) groups_request) as [res|]; simpl; [|done].
  destruct res as [| |b|n|s|gl|fields]; simpl; try done.
  destruct (fields !! "results") as [results|]; simpl; [|done].
  by destruct (truthy results).
Qed.

Lemma listAllGroups_eq (reply : list Request → Request → Settled JsVal) (w : World) :
  listAllGroups reply w =
    (Fulfilled (directory_of (reply (requests_of (trace w)) groups_request)),
     {| dialog := dialog w; trace := trace w ++ [Requested groups_request] |}).
Proof.
  destruct (listAllGroups_run reply w) as [gl Hrun].
  pose proof (listAllGroups_value reply w) as Hv.
  rewrite Hrun in Hv. simpl in Hv. injection Hv as ->. exact Hrun.
Qed.

(** The dialog state and the trace after [loadAll], from the two
    replies. *)
Lemma loadAll_dialog (aclUrl : string)
    (reply : list Request → Request → Settled JsVal) (w : World) :
  ∃ gs,
    let gl := directory_of (reply (requests_of (trace w) ++ [acl_request aclUrl])
                                  groups_request) in
    loadAll aclUrl reply w =
      (tt,
       {| dialog := {| loading := false; grants := gs; allGroups := gl |};
          trace := trace w ++ LoadAllCalled :: reload_events aclUrl gs gl |}) ∧
    match reply (requests_of (trace w)) (acl_request aclUrl) with
    | Fulfilled perm => normalizePermissionsShape perm = Some gs
    | Rejected => gs = empty_grants
    end.
Proof.
  unfold loadAll, loadAll_chain, reload_events. run_eff.
  rewrite !requests_of_app. simpl. rewrite !app_nil_r. fold (acl_request aclUrl).
  destruct (reply (requests_of (trace w)) (acl_request aclUrl)) as [perm|] eqn:Er; simpl.
  - rewrite listAllGroups_eq. simpl.
    rewrite !requests_of_app. simpl. rewrite !app_nil_r.
    destruct (normalize_total perm) as [gs Hgs]. rewrite Hgs. simpl.
    exists gs. split; [|done]. by rewrite <- !app_assoc.
  - rewrite listAllGroups_eq. simpl.
    rewrite !requests_of_app. simpl. rewrite !app_nil_r.
    change (normalizePermissionsShape (JObj ∅)) with (Some empty_grants). simpl.
    exists empty_grants. split; [|done]. by rewrite <- !app_assoc.
Qed.

(** X5: the group fetch sends one request and is always fulfilled: with
    the reply if it is an array, with the truthy [results] of any other
    reply, and with the empty list when the request fails, when the
    reply is [null] or when it has no such [results]. *)
Theorem listAllGroups_never_rejects
    (reply : list Request → Request → Settled JsVal) (w : World) :
  listAllGroups reply w =
    (Fulfilled (directory_of (reply (requests_of (trace w)) groups_request)),
     {| dialog := dialog w; trace := trace w ++ [Requested groups_request] |}).
Proof. apply listAllGroups_eq. Qed.

(** X6: when the permission fetch succeeds, [loadAll] leaves the normal
    form of its payload in [grants], the group list of the directory
    reply in [allGroups], and [loading] off. *)
Theorem loadAll_stores_payload (aclUrl : string)
    (reply : list Request → Request → Settled JsVal) (w : World) (perm : JsVal) :
  reply (requests_of (trace w)) (acl_request aclUrl) = Fulfilled perm →
  normalizePermissionsShape perm = Some (grants (dialog (snd (loadAll aclUrl reply w)))) ∧
  allGroups (dialog (snd (loadAll aclUrl reply w))) =
    directory_of (reply (requests_of (trace w) ++ [acl_request aclUrl]) groups_request) ∧
  loading (dialog (snd (loadAll aclUrl reply w))) = false.
Proof.
  intros Hperm. destruct (loadAll_dialog aclUrl reply w) as (gs & Hrun & Hgs).
  simpl in Hrun. rewrite Hrun. simpl. by rewrite Hperm in Hgs.
Qed.

(** X7: whatever the two requests do, [loadAll] sends exactly those two,
    the permissions first, writes [grants] once, ends with [loading]
    off and reports nothing: its chain is always fulfilled, so its
    handler with "Failed to load permissions" never runs. *)
Theorem loadAll_never_notifies (aclUrl : string)
    (reply : list Request → Request → Settled JsVal) (w : World) :
  fst (loadAll_chain aclUrl reply w) = Fulfilled () ∧
  notifications (trace (snd (loadAll aclUrl reply w))) = notifications (trace w) ∧
  requests_of (trace (snd (loadAll aclUrl reply w))) =
    requests_of (trace w) ++ [acl_request aclUrl; groups_request] ∧
  length (grants_writes (trace (snd (loadAll aclUrl reply w)))) =
    S (length (grants_writes (trace w))) ∧
  loading (dialog (snd (loadAll aclUrl reply w))) = false.
Proof.
  destruct (loadAll_chain_run aclUrl reply w) as (gs' & gl' & Hchain & _).
  destruct (loadAll_dialog aclUrl reply w) as (gs & Hrun & _).
  simpl in Hrun. rewrite Hchain, Hrun. simpl.
  split; [done|]. split.
  { rewrite notifications_app. simpl. by rewrite app_nil_r. }
  split.
  { by rewrite requests_of_app. }
  split; [|done].
  assert (∀ l1 l2, grants_writes (l1 ++ l2) = grants_writes l1 ++ grants_writes l2) as Happ.
  { intros l1 l2. induction l1 as [|e l1 IH]; [done|]. destruct e; simpl; by rewrite IH. }
  rewrite Happ, length_app. simpl. lia.
Qed.

(** X8: when only the group directory fails, [allGroups] becomes the
    empty list and [grants] is still the normal form of the payload. *)
Theorem loadAll_group_failure (aclUrl : string)
    (reply : list Request → Request → Settled JsVal) (w : World) (perm : JsVal) :
  reply (requests_of (trace w)) (acl_request aclUrl) = Fulfilled perm →
  reply (requests_of (trace w) ++ [acl_request aclUrl]) groups_request = Rejected →
  allGroups (dialog (snd (loadAll aclUrl reply w))) = JArr [] ∧
  normalizePermissionsShape perm = Some (grants (dialog (snd (loadAll aclUrl reply w)))).
Proof.
  intros Hperm Hgroups. destruct (loadAll_dialog aclUrl reply w) as (gs & Hrun & Hgs).
  simpl in Hrun. rewrite Hrun. simpl. rewrite Hgroups. by rewrite Hperm in Hgs.
Qed.

(** X9: a reload replaces the dialog state wholesale: what it leaves
    depends on the replies only, not on the grants, the groups or the
    loading flag it found. *)
Theorem loadAll_replaces_state (aclUrl : string)
    (reply : list Request → Request → Settled JsVal) (w w' : World) :
  requests_of (trace w) = requests_of (trace w') →
  dialog (snd (loadAll aclUrl reply w)) = dialog (snd (loadAll aclUrl reply w')).
Proof.
  intros Hsame.
  destruct (loadAll_dialog aclUrl reply w) as (gs & Hrun & Hgs).
  destruct (loadAll_dialog aclUrl reply w') as (gs' & Hrun' & Hgs').
  simpl in Hrun, Hrun'. rewrite Hrun, Hrun'. simpl. rewrite <- Hsame in *.
  f_equal.
  destruct (reply (requests_of (trace w)) (acl_request aclUrl)); congruence.
Qed.

(** X10: a directory reply whose [results] is truthy and no array is
    stored as it is, and [availableGroups] then throws, since the state
    has no [filter]. *)
Theorem non_array_results_break_groups (aclUrl : string)
    (reply : list Request → Request → Settled JsVal) (w : World)
    (fields : gmap string JsVal) (results : JsVal) :
  reply (requests_of (trace w) ++ [acl_request aclUrl]) groups_request =
    Fulfilled (JObj fields) →
  fields !! "results" = Some results →
  truthy results = true → isArray results = false →
  allGroups (dialog (snd (loadAll aclUrl reply w))) = results ∧
  availableGroups (grants (dialog (snd (loadAll aclUrl reply w))))
                  (allGroups (dialog (snd (loadAll aclUrl reply w)))) = None.
Proof.
  intros Hreply Hres Ht Ha. destruct (loadAll_dialog aclUrl reply w) as (gs & Hrun & _).
  simpl in Hrun. rewrite Hrun. simpl. rewrite Hreply. simpl. rewrite Hres, Ht.
  split; [done|]. unfold availableGroups.
  destruct (ids_of (groups (view gs))); simpl; [|done].
  destruct (ids_of (groups (modify gs))); simpl; [|done].
  by destruct results.
Qed.

(** ** The requests of the commands *)

(** X11: every command first sends one request to [aclUrl], a POST to
    grant and a DELETE to revoke, whose body names the access type and
    carries the id under [user_id] for a user command and under
    [group_id] for a group command, never under both. *)
Theorem command_request_shape (aclUrl : string)
    (reply : list Request → Request → Settled JsVal)
    (c : Command) (t : AccessType) (id : JsVal) (w : World) :
  ∃ r rest,
    trace (snd (run_command aclUrl reply c t id w)) = trace w ++ Requested r :: rest ∧
    url r = aclUrl ∧
    method r = match c with GrantUser | GrantGroup => POST | _ => DELETE end ∧
    member (data r) "access_type" = Some (JStr (key_of t)) ∧
    member (data r) (match c with GrantUser | RevokeUser => "user_id" | _ => "group_id" end)
      = Some id ∧
    has_key (data r) (match c with GrantUser | RevokeUser => "group_id" | _ => "user_id" end)
      = false.
Proof.
  exists (command_request aclUrl c t id).
  assert (∃ rest, trace (snd (run_command aclUrl reply c t id w)) =
                  trace w ++ Requested (command_request aclUrl c t id) :: rest)
    as [rest Hrest].
  { rewrite command_run. unfold reload_or_report.
    unfold mbind, eff_mbind, eff_bind, axios.
    destruct (reply (requests_of (trace w)) _) as [posted|]; simpl.
    - unfold mbind, eff_mbind, eff_bind.
      set (w1 := {| dialog := dialog w; trace := trace w ++ [_] |}).
      destruct (loadAll_run aclUrl reply w1) as (gs & gl & Hrun & _).
      rewrite Hrun. subst w1. simpl. rewrite <- app_assoc. by eexists.
    - unfold mbind, eff_mbind, eff_bind, notify_error, emit, eff_ret. simpl.
      rewrite <- app_assoc. by eexists. }
  exists rest. split; [done|]. by destruct c, t.
Qed.

(** X12: when a command succeeds and the fetch of its reload fails, the
    command is still fulfilled, nothing is reported, and the grants
    shown become the all-empty grant set. *)
Theorem reload_failure_clears_grants (aclUrl : string)
    (reply : list Request → Request → Settled JsVal)
    (c : Command) (t : AccessType) (id : JsVal) (w : World) (posted : JsVal) :
  reply (requests_of (trace w)) (command_request aclUrl c t id) = Fulfilled posted →
  reply (requests_of (trace w) ++ [command_request aclUrl c t id]) (acl_request aclUrl)
    = Rejected →
  fst (run_command aclUrl reply c t id w) = Fulfilled () ∧
  grants (dialog (snd (run_command aclUrl reply c t id w))) = empty_grants ∧
  loading (dialog (snd (run_command aclUrl reply c t id w))) = false ∧
  notifications (trace (snd (run_command aclUrl reply c t id w))) =
    notifications (trace w).
Proof.
  intros Hpost Hget. rewrite command_run. unfold reload_or_report.
  unfold mbind, eff_mbind, eff_bind, axios. rewrite Hpost. simpl.
  unfold mbind, eff_mbind, eff_bind.
  set (w1 := {| dialog := dialog w; trace := trace w ++ [_] |}).
  destruct (loadAll_run aclUrl reply w1) as (gs & gl & Hrun & Hgs).
  rewrite Hrun. subst w1. simpl in *.
  rewrite requests_of_app in Hgs. simpl in Hgs. rewrite Hget in Hgs. subst gs.
  repeat split. rewrite !notifications_app. simpl. by rewrite !app_nil_r.
Qed.

(** ** The filters on identified records *)

Lemma matches_id_identified (deep : JsVal → JsVal → bool) (uid entry : JsVal) :
  is_scalar uid = true → truthy uid = true →
  Lodash.matches_id deep uid entry = strict_eq (group_id entry) uid.
Proof.
  intros Hs Ht. unfold Lodash.matches_id, group_id. rewrite Hs.
  destruct (member entry "id") as [v|]; simpl.
  - replace (strict_eq uid JUndefined) with false by (by destruct uid).
    simpl. by rewrite andb_true_r.
  - by destruct uid.
Qed.

(** For a truthy scalar id, what [find] and [get] yield is truthy
    exactly when an entry of the list has the id. *)
Lemma find_get_has_id (deep : JsVal → JsVal → bool) (entries : list JsVal) (uid : JsVal) :
  is_scalar uid = true → truthy uid = true →
  truthy (Lodash.get (Lodash.find deep entries uid) "id") = has_id entries uid.
Proof.
  intros Hs Ht. unfold Lodash.find, has_id.
  induction entries as [|entry entries IH]; [done|].
  simpl. rewrite (matches_id_identified deep uid entry Hs Ht).
  destruct (strict_eq (group_id entry) uid) eqn:E; simpl; [|exact IH].
  apply strict_eq_eq in E. unfold Lodash.get. fold (group_id entry). by rewrite E.
Qed.

Lemma userHasPermission_identified (deep : JsVal → JsVal → bool) (author : JsVal)
    (grants : GrantSet) (type : AccessType) (u uid aid : JsVal) :
  member u "id" = Some uid → member author "id" = Some aid →
  is_scalar uid = true → truthy uid = true →
  userHasPermission deep author grants u type =
    Some (strict_eq uid aid || has_id (users (access grants type)) uid).
Proof.
  intros Hu Ha Hs Ht. unfold userHasPermission. rewrite Hu, Ha. simpl.
  destruct (strict_eq uid aid); [done|]. simpl.
  by rewrite (find_get_has_id deep _ uid Hs Ht).
Qed.

(** X13: for a user whose id is a truthy scalar, [userHasPermission] is
    true exactly when the id is the author's or the list of that access
    type has an entry with the id; the list of the other access type
    and the groups play no part. *)
Theorem userHasPermission_is_author_or_listed (deep : JsVal → JsVal → bool)
    (author : JsVal) (grants : GrantSet) (type : AccessType) (u uid aid : JsVal) :
  member u "id" = Some uid → member author "id" = Some aid →
  is_scalar uid = true → truthy uid = true →
  userHasPermission deep author grants u type =
    Some (strict_eq uid aid || has_id (users (access grants type)) uid).
Proof. apply userHasPermission_identified. Qed.

Lemma offeredUsers_identified (deep : JsVal → JsVal → bool)
    (author : JsVal) (grants : GrantSet) (type : AccessType) (aid : JsVal)
    (found : list JsVal) :
  member author "id" = Some aid →
  Forall identified found →
  offeredUsers (shouldShowUser deep author grants type) found =
    Some (List.filter
            (λ u, negb (strict_eq (group_id u) aid
                        || has_id (users (access grants type)) (group_id u)))
            found).
Proof.
  intros Ha. unfold offeredUsers. induction 1 as [|u found (uid & Hu & Hs & Ht) _ IH];
    [done|].
  cbn [filterM List.filter]. unfold shouldShowUser in *.
  rewrite (userHasPermission_identified deep author grants type u uid aid Hu Ha Hs Ht).
  rewrite IH. simpl. unfold group_id. rewrite Hu. simpl.
  by destruct (strict_eq uid aid || has_id (users (access grants type)) uid).
Qed.

(** X14: of search results whose ids are truthy scalars, the select
    box of an access type offers, in their order, exactly those that
    are neither the author nor on the list of that access type. *)
Theorem offeredUsers_are_the_ungranted (deep : JsVal → JsVal → bool)
    (author : JsVal) (grants : GrantSet) (type : AccessType) (aid : JsVal)
    (found : list JsVal) :
  member author "id" = Some aid →
  Forall identified found →
  offeredUsers (shouldShowUser deep author grants type) found =
    Some (List.filter
            (λ u, negb (strict_eq (group_id u) aid
                        || has_id (users (access grants type)) (group_id u)))
            found).
Proof. apply offeredUsers_identified. Qed.

(** ** The group filter at its edges *)

Lemma filterM_sublist {A : Type} (p : A → option bool) (l k : list A) :
  filterM p l = Some k → k `sublist_of` l.
Proof.
  revert k. induction l as [|x l IH]; intros k; simpl.
  - intros [= <-]. constructor.
  - destruct (p x) as [keep|]; simpl; [|done].
    destruct (filterM p l) as [rest|]; simpl; [|done].
    intros [= <-]. destruct keep.
    + apply sublist_skip. by apply IH.
    + apply sublist_cons. by apply IH.
Qed.

(** X15: whatever the grants and the directory hold, what
    [availableGroups] returns is a selection of the directory in the
    directory's order: it adds no group, repeats none and reorders
    none. *)
Theorem availableGroups_sublist (grants : GrantSet) (directory : JsVal)
    (offered : list JsVal) :
  availableGroups grants directory = Some offered →
  ∃ dir, directory = JArr dir ∧ offered `sublist_of` dir.
Proof.
  unfold availableGroups.
  destruct (ids_of (groups (view grants))) as [vids|]; simpl; [|done].
  destruct (ids_of (groups (modify grants))) as [mids|]; simpl; [|done].
  destruct directory as [| | | | |dir|]; try done.
  intros Hf. exists dir. split; [done|]. by apply filterM_sublist in Hf.
Qed.

Lemma ids_of_nullish (gs : list JsVal) (g : JsVal) :
  g ∈ gs → member g "id" = None → ids_of gs = None.
Proof.
  unfold ids_of. induction gs as [|x gs IH]; intros Hin Hg;
    [by apply not_elem_of_nil in Hin|].
  simpl. apply elem_of_cons in Hin as [<-|Hin].
  - by rewrite Hg.
  - destruct (member x "id"); simpl; [|done]. by rewrite (IH Hin Hg).
Qed.

Lemma filterM_nullish (p : JsVal → option bool) (l : list JsVal) (g : JsVal) :
  g ∈ l → p g = None → filterM p l = None.
Proof.
  induction l as [|x l IH]; intros Hin Hg; [by apply not_elem_of_nil in Hin|].
  simpl. apply elem_of_cons in Hin as [<-|Hin].
  - by rewrite Hg.
  - destruct (p x); simpl; [|done]. by rewrite (IH Hin Hg).
Qed.

(** X16: a [null] or [undefined] entry among the granted groups of
    either category or in the directory makes [availableGroups] throw,
    as does a directory that is no array. *)
Theorem availableGroups_throws (grants : GrantSet) (dir : list JsVal)
    (directory g : JsVal) :
  (g ∈ groups (view grants) ++ groups (modify grants) ++ dir →
   member g "id" = None →
   availableGroups grants (JArr dir) = None) ∧
  (isArray directory = false → availableGroups grants directory = None).
Proof.
  split.
  - intros Hin Hg. unfold availableGroups.
    apply elem_of_app in Hin as [Hin|Hin].
    { by rewrite (ids_of_nullish _ g Hin Hg). }
    destruct (ids_of (groups (view grants))) as [vids|]; simpl; [|done].
    apply elem_of_app in Hin as [Hin|Hin].
    { by rewrite (ids_of_nullish _ g Hin Hg). }
    destruct (ids_of (groups (modify grants))) as [mids|]; simpl; [|done].
    apply (filterM_nullish _ dir g Hin). by rewrite Hg.
  - intros Ha. unfold availableGroups.
    destruct (ids_of (groups (view grants))) as [vids|]; simpl; [|done].
    destruct (ids_of (groups (modify grants))) as [mids|]; simpl; [|done].
    by destruct directory.
Qed.

(** X17: while no group holds a grant, every group of the directory is
    offered, whatever users are granted. *)
Theorem availableGroups_without_group_grants (grants : GrantSet) (dir : list JsVal) :
  groups (view grants) = [] → groups (modify grants) = [] →
  Forall readable dir →
  availableGroups grants (JArr dir) = Some dir.
Proof.
  intros Hv Hm Hd. unfold availableGroups. rewrite Hv, Hm. simpl.
  induction Hd as [|g dir [gid Hg] _ IH]; [done|].
  simpl. rewrite Hg. simpl. by rewrite IH.
Qed.

(** ** The rows of the user list *)

Lemma userRowAction_button (author : JsVal) (type : AccessType) (aid entry : JsVal)
    (act : RowAction) :
  member author "id" = Some aid →
  userRowAction author type entry = Some act →
  ∃ uid, member entry "id" = Some uid ∧
         act = if strict_eq uid aid then AuthorTag
               else RevokeButton RevokeUser type uid.
Proof.
  intros Ha. unfold userRowAction.
  destruct (member entry "id") as [uid|]; simpl; [|done]. rewrite Ha. simpl.
  destruct (strict_eq uid aid) eqn:E; simpl; intros [= <-]; exists uid; by rewrite E.
Qed.

Lemma userRowActions_buttons (author : JsVal) (type : AccessType) (aid : JsVal)
    (entries : list JsVal) (acts : list RowAction) :
  member author "id" = Some aid →
  mapM (userRowAction author type) entries = Some acts →
  Forall2 (λ entry act,
             ∃ uid, member entry "id" = Some uid ∧
                    act = if strict_eq uid aid then AuthorTag
                          else RevokeButton RevokeUser type uid)
          entries acts.
Proof.
  intros Ha. revert acts. induction entries as [|entry entries IH]; intros acts.
  - intros [= <-]. constructor.
  - cbn [mapM].
    destruct (userRowAction author type entry) as [act|] eqn:Ea; simpl; [|done].
    destruct (mapM (userRowAction author type) entries) as [rest|]; simpl; [|done].
    intros [= <-]. constructor; [|by apply IH].
    by apply (userRowAction_button author type aid entry act).
Qed.

(** X18: in the user list of either access type, the row of an entry
    with the author's id shows the Author tag, every other row shows a
    Revoke button for its own id and that access type; so no button of
    the list revokes the author. *)
Theorem author_row_not_revocable (author : JsVal) (grants : GrantSet)
    (type : AccessType) (aid : JsVal) (acts : list RowAction) :
  member author "id" = Some aid →
  userRowActions author grants type = Some acts →
  Forall2 (λ entry act,
             ∃ uid, member entry "id" = Some uid ∧
                    act = if strict_eq uid aid then AuthorTag
                          else RevokeButton RevokeUser type uid)
          (users (access grants type)) acts ∧
  (∀ c t id, RevokeButton c t id ∈ acts →
             c = RevokeUser ∧ t = type ∧ strict_eq id aid = false).
Proof.
  intros Ha Hacts. unfold userRowActions in Hacts.
  pose proof (userRowActions_buttons author type aid _ acts Ha Hacts) as Hrows.
  split; [done|]. intros c t id Hin. clear Hacts. revert Hin.
  induction Hrows as [|entry act entries acts' (uid & Hu & Hact) _ IH]; intros Hin;
    [by apply not_elem_of_nil in Hin|].
  apply elem_of_cons in Hin as [Heq|Hin]; [|by apply IH].
  rewrite Hact in Heq. destruct (strict_eq uid aid) eqn:E; [done|].
  by injection Heq as -> -> ->.
Qed.

(** ** The select box after a search *)

(** X19: when the user query fails, or answers [null] or [undefined],
    the select box leaves loading with no user to offer, whatever it
    held before and whatever the filter. *)
Theorem failed_search_offers_nothing (shouldShow : JsVal → option bool)
    (s : UserSelect.State) (res : JsVal) :
  UserSelect.options shouldShow (UserSelect.on_search_settled Rejected s) = Some [] ∧
  (member res "results" = None →
   UserSelect.options shouldShow (UserSelect.on_search_settled (Fulfilled res) s)
     = Some []).
Proof.
  split; [done|]. intros Hres.
  unfold UserSelect.on_search_settled, searchUsers. by rewrite Hres.
Qed.

(** X20: when the query answers with a [results] that is no array, a
    reply without [results] among them, that value becomes the [users]
    state and rendering the options throws. *)
Theorem search_without_list_throws (shouldShow : JsVal → option bool)
    (s : UserSelect.State) (res results : JsVal) :
  member res "results" = Some results → isArray results = false →
  UserSelect.users (UserSelect.on_search_settled (Fulfilled res) s) = results ∧
  UserSelect.loadingUsers (UserSelect.on_search_settled (Fulfilled res) s) = false ∧
  UserSelect.options shouldShow (UserSelect.on_search_settled (Fulfilled res) s) = None.
Proof.
  intros Hres Ha. unfold UserSelect.on_search_settled, searchUsers. rewrite Hres.
  unfold UserSelect.options. simpl. by destruct results.
Qed.

(** X23: the response of a search is applied whenever it arrives: if a
    new term was typed in between, the select box still takes the
    users of the response and leaves loading, with the new term in its
    search field. *)
Theorem late_response_is_applied (s : UserSelect.State) (term : string)
    (res : JsVal) (found : list JsVal) :
  member res "results" = Some (JArr found) →
  UserSelect.on_search_settled (Fulfilled res) (UserSelect.on_search term s) =
    {| UserSelect.loadingUsers := false; UserSelect.users := JArr found;
       UserSelect.searchTerm := term |}.
Proof.
  intros Hres. unfold UserSelect.on_search_settled, searchUsers. rewrite Hres.
  unfold UserSelect.on_search. case_bool_decide as Hterm; simpl; [|done].
  by rewrite Hterm.
Qed.

Lemma option_values (shown : list JsVal) (opts : list UserSelect.SelectOption)
    (value label email : JsVal) :
  mapM UserSelect.option_of shown = Some opts →
  UserSelect.UserOption value label email ∈ opts →
  ∃ u, u ∈ shown ∧ member u "id" = Some value.
Proof.
  revert opts. induction shown as [|u shown IH]; intros opts.
  - intros [= <-] Hin. by apply not_elem_of_nil in Hin.
  - cbn [mapM]. destruct (UserSelect.option_of u) as [opt|] eqn:Eo; simpl; [|done].
    destruct (mapM UserSelect.option_of shown) as [rest|]; simpl; [|done].
    intros [= <-] [Heq|Hin]%elem_of_cons.
    + exists u. split; [apply list_elem_of_here|].
      revert Eo. unfold UserSelect.option_of.
      destruct (member u "id") as [id|]; simpl; [|done].
      destruct (member u "name") as [name|]; simpl; [|done].
      destruct (member u "email") as [mail|]; simpl; [|done].
      intros [= <-]. by injection Heq as -> _ _.
    + destruct (IH rest eq_refl Hin) as (u' & Hu' & Hid).
      exists u'. split; [by apply elem_of_cons; right|done].
Qed.

(** X24: once a search has delivered users whose ids are truthy
    scalars, no option of the select box of an access type carries the
    author's id or an id on the list of that access type; so selecting
    an option never asks to grant what the author or a listed user
    already has. *)
Theorem options_exclude_author_and_granted (deep : JsVal → JsVal → bool)
    (author : JsVal) (grants : GrantSet) (type : AccessType) (aid : JsVal)
    (s : UserSelect.State) (found : list JsVal)
    (opts : list UserSelect.SelectOption) (value label email : JsVal) :
  member author "id" = Some aid →
  UserSelect.loadingUsers s = false →
  UserSelect.users s = JArr found →
  Forall identified found →
  UserSelect.options (shouldShowUser deep author grants type) s = Some opts →
  UserSelect.UserOption value label email ∈ opts →
  strict_eq value aid = false ∧ has_id (users (access grants type)) value = false.
Proof.
  intros Ha Hl Hu Hid. unfold UserSelect.options. rewrite Hl, Hu.
  pose proof (offeredUsers_identified deep author grants type aid found Ha Hid) as Hoff.
  unfold offeredUsers in Hoff. rewrite Hoff. simpl.
  intros Hopts Hin.
  destruct (option_values _ opts value label email Hopts Hin) as (u & Hshown & Hval).
  apply list_elem_of_In, filter_In in Hshown as [_ Hkeep].
  unfold group_id in Hkeep. rewrite Hval in Hkeep. simpl in Hkeep.
  apply negb_true_iff, orb_false_iff in Hkeep. done.
Qed.

(** ** Keystrokes apart and searches issued *)

Section DebounceMore.

Import Debounce.

Variable wait : Z.
Hypothesis wait_pos : 0 < wait.

Lemma scheduled_searches_cons (t : Z) (term : string) (rest : list (Z * string))
    (until : Z) (p : Pending) :
  scheduled_searches wait ((t, term) :: rest) until p =
    snd (elapse t p) ++ scheduled_searches wait rest until (schedule wait t term (fst (elapse t p))).
Proof.
  unfold scheduled_searches. simpl.
  destruct (elapse t p) as [p1 out1]. simpl.
  destruct (scheduled_typing wait rest (schedule wait t term p1)) as [p2 out2].
  destruct (elapse until p2) as [p3 out3]. by rewrite app_assoc.
Qed.



Lemma scheduled_origin (keys typed : list (Z * string)) (until : Z) (p : Pending) :
  (∀ key, key ∈ keys → key ∈ typed) →
  (∀ pending, p = Some pending → ∃ key, key ∈ typed ∧ pending = search_of wait key) →
  ∀ call, call ∈ scheduled_searches wait keys until p →
          ∃ key, key ∈ typed ∧ call = search_of wait key.
Proof.
  revert p. induction keys as [|[t term] keys IH]; intros p Hkeys Hp call.
  - unfold scheduled_searches. simpl. destruct p as [[due tm]|]; simpl.
    + case_bool_decide; simpl; intros Hin.
      * apply list_elem_of_singleton in Hin as ->. by apply Hp.
      * by apply not_elem_of_nil in Hin.
    + intros Hin. by apply not_elem_of_nil in Hin.
  - rewrite scheduled_searches_cons. intros [Hin|Hin]%elem_of_app.
    + destruct p as [[due tm]|]; simpl in Hin.
      * revert Hin. case_bool_decide; simpl; intros Hin.
        -- apply list_elem_of_singleton in Hin as ->. by apply Hp.
        -- by apply not_elem_of_nil in Hin.
      * by apply not_elem_of_nil in Hin.
    + revert Hin. apply IH.
      * intros key Hkey. apply Hkeys. by apply elem_of_cons; right.
      * intros pending [= <-]. exists (t, term). split; [|done].
        apply Hkeys. apply list_elem_of_here.
Qed.

Lemma scheduled_count (keys : list (Z * string)) (until : Z) (p : Pending) :
  (length (scheduled_searches wait keys until p)
   ≤ length keys + match p with Some _ => 1 | None => 0 end)%nat.
Proof.
  revert p. induction keys as [|[t term] keys IH]; intros p.
  - unfold scheduled_searches. simpl. destruct p as [[due tm]|]; simpl; [|lia].
    case_bool_decide; simpl; lia.
  - rewrite scheduled_searches_cons, length_app.
    pose proof (IH (schedule wait t term (fst (elapse t p)))) as Hrest.
    unfold schedule in *. simpl in *.
    destruct p as [[due tm]|]; simpl; [|lia].
    case_bool_decide; simpl; lia.
Qed.


Lemma searches_origin (keys : list (Z * string)) (from until : Z) (call : SearchCall) :
  in_order from keys →
  call ∈ searches wait keys until fresh →
  ∃ key, key ∈ keys ∧ call = search_of wait key.
Proof.
  intros Hord. rewrite (searches_as_scheduled wait wait_pos keys from until fresh None)
    by done.
  by apply scheduled_origin.
Qed.

Lemma searches_count (keys : list (Z * string)) (from until : Z) :
  in_order from keys →
  (length (searches wait keys until fresh) ≤ length keys)%nat.
Proof.
  intros Hord. rewrite (searches_as_scheduled wait wait_pos keys from until fresh None)
    by done.
  pose proof (scheduled_count keys until None). simpl in *. lia.
Qed.

End DebounceMore.


(** X22: from a fresh select box and for keystrokes in the order of
    their times, every search issued is the search of one of the
    keystrokes, for the term typed then and exactly 200 after it, and
    there are no more searches than keystrokes. *)
Theorem searches_come_from_keystrokes (keys : list (Z * string)) (from until : Z) :
  Debounce.in_order from keys →
  (∀ call, call ∈ Debounce.searches Debounce.DEBOUNCE_SEARCH_DURATION keys until
                     Debounce.fresh →
           ∃ key, key ∈ keys ∧
                  call = Debounce.search_of Debounce.DEBOUNCE_SEARCH_DURATION key) ∧
  (length (Debounce.searches Debounce.DEBOUNCE_SEARCH_DURATION keys until Debounce.fresh)
   ≤ length keys)%nat.
Proof.
  intros Hord. split.
  - intros call.
    by apply (searches_origin Debounce.DEBOUNCE_SEARCH_DURATION eq_refl keys from).
  - by apply (searches_count Debounce.DEBOUNCE_SEARCH_DURATION eq_refl keys from).
Qed.

(** ** The further properties at sample inputs *)

Lemma normalize_ignores_other_keys_witness :
  normalizePermissionsShape (JObj mixed_payload) =
    normalizePermissionsShape (JObj (delete "owner" mixed_payload)).
Proof. apply normalize_ignores_other_keys; reflexivity. Defined.

Lemma normalize_object_entry_witness :
  ∃ gs, normalizePermissionsShape (JObj mixed_payload) = Some gs ∧
        users (access gs Modify) = [] ∧
        groups (access gs Modify) = [group_record 2 "default"].
Proof. exact (normalize_object_entry mixed_payload _ Modify eq_refl). Defined.

Lemma normalize_scalar_entry_witness :
  ∃ gs, normalizePermissionsShape (JObj (<["view" := JStr "everyone"]> ∅)) = Some gs ∧
        access gs View = empty_access.
Proof.
  exact (normalize_scalar_entry (<["view" := JStr "everyone"]> ∅) View
           (JStr "everyone") eq_refl eq_refl).
Defined.

Lemma normalize_array_entry_witness :
  ∃ gs, normalizePermissionsShape (JObj mixed_payload) = Some gs ∧
        access gs View = {| users := [user_record 1 "Ada" "ada@example.org"];
                            groups := [] |}.
Proof. exact (normalize_array_entry mixed_payload View _ eq_refl). Defined.

Lemma loadAll_stores_payload_witness :
  normalizePermissionsShape (to_js empty_grants) =
    Some (grants (dialog (snd (loadAll sample_url sample_reply initial_world)))) ∧
  allGroups (dialog (snd (loadAll sample_url sample_reply initial_world))) =
    JArr [group_record 1 "admin"; group_record 2 "default"] ∧
  loading (dialog (snd (loadAll sample_url sample_reply initial_world))) = false.
Proof.
  exact (loadAll_stores_payload sample_url sample_reply initial_world
           (to_js empty_grants) eq_refl).
Defined.

Lemma loadAll_group_failure_witness :
  allGroups (dialog (snd (loadAll sample_url reply_groups_fail initial_world))) = JArr [] ∧
  normalizePermissionsShape payload_with_7 =
    Some (grants (dialog (snd (loadAll sample_url reply_groups_fail initial_world)))).
Proof.
  exact (loadAll_group_failure sample_url reply_groups_fail initial_world
           payload_with_7 eq_refl eq_refl).
Defined.

Lemma loadAll_replaces_state_witness :
  dialog (snd (loadAll sample_url sample_reply initial_world)) =
    dialog (snd (loadAll sample_url sample_reply loaded_world)).
Proof.
  exact (loadAll_replaces_state sample_url sample_reply initial_world loaded_world
           eq_refl).
Defined.

Lemma non_array_results_break_groups_witness :
  allGroups (dialog (snd (loadAll sample_url reply_groups_text initial_world))) =
    JStr "none" ∧
  availableGroups (grants (dialog (snd (loadAll sample_url reply_groups_text initial_world))))
    (allGroups (dialog (snd (loadAll sample_url reply_groups_text initial_world)))) = None.
Proof.
  exact (non_array_results_break_groups sample_url reply_groups_text initial_world
           (<["results" := JStr "none"]> ∅) (JStr "none") eq_refl eq_refl eq_refl eq_refl).
Defined.

Lemma reload_failure_clears_grants_witness :
  fst (grantUser sample_url reply_reload_fails View (JNum 7) loaded_world) = Fulfilled () ∧
  grants (dialog (snd (grantUser sample_url reply_reload_fails View (JNum 7) loaded_world)))
    = empty_grants ∧
  loading (dialog (snd (grantUser sample_url reply_reload_fails View (JNum 7) loaded_world)))
    = false ∧
  notifications (trace (snd (grantUser sample_url reply_reload_fails View (JNum 7)
                               loaded_world))) = [].
Proof.
  exact (reload_failure_clears_grants sample_url reply_reload_fails GrantUser View
           (JNum 7) loaded_world JNull eq_refl eq_refl).
Defined.

Lemma userHasPermission_is_author_or_listed_witness :
  userHasPermission no_deep_match sample_author grants_with_author
    (user_record 2 "Bob" "bob@example.org") View = Some true ∧
  userHasPermission no_deep_match sample_author grants_with_author
    (user_record 2 "Bob" "bob@example.org") Modify = Some false.
Proof.
  split.
  - exact (userHasPermission_is_author_or_listed no_deep_match sample_author
             grants_with_author View (user_record 2 "Bob" "bob@example.org")
             (JNum 2) (JNum 1) eq_refl eq_refl eq_refl eq_refl).
  - exact (userHasPermission_is_author_or_listed no_deep_match sample_author
             grants_with_author Modify (user_record 2 "Bob" "bob@example.org")
             (JNum 2) (JNum 1) eq_refl eq_refl eq_refl eq_refl).
Defined.

Lemma offeredUsers_are_the_ungranted_witness :
  offeredUsers (shouldShowUser no_deep_match sample_author grants_with_author View)
    sample_found = Some [user_record 3 "Cy" "cy@example.org"].
Proof.
  apply (offeredUsers_are_the_ungranted no_deep_match sample_author grants_with_author
           View (JNum 1) sample_found eq_refl).
  repeat constructor; eexists; (split; [reflexivity|]); split; reflexivity.
Defined.

Lemma availableGroups_sublist_witness :
  ∃ dir, JArr sample_directory = JArr dir ∧ [group_record 2 "default"] `sublist_of` dir.
Proof.
  exact (availableGroups_sublist sample_group_grants (JArr sample_directory)
           [group_record 2 "default"] eq_refl).
Defined.

Lemma availableGroups_throws_witness :
  availableGroups grants_with_null_group (JArr sample_directory) = None ∧
  availableGroups sample_group_grants (JStr "none") = None.
Proof.
  split.
  - apply (proj1 (availableGroups_throws grants_with_null_group sample_directory
                    JNull JNull)); [apply list_elem_of_here|reflexivity].
  - apply (proj2 (availableGroups_throws sample_group_grants [] (JStr "none") JNull)).
    reflexivity.
Defined.

Lemma availableGroups_without_group_grants_witness :
  availableGroups grants_with_author (JArr sample_directory) = Some sample_directory.
Proof.
  apply availableGroups_without_group_grants; [reflexivity|reflexivity|].
  repeat constructor; by eexists.
Defined.

Lemma author_row_not_revocable_witness :
  Forall2 (λ entry act,
             ∃ uid, member entry "id" = Some uid ∧
                    act = if strict_eq uid (JNum 1) then AuthorTag
                          else RevokeButton RevokeUser View uid)
          (users (access grants_with_author View))
          [AuthorTag; RevokeButton RevokeUser View (JNum 2)] ∧
  (∀ c t id, RevokeButton c t id ∈ [AuthorTag; RevokeButton RevokeUser View (JNum 2)] →
             c = RevokeUser ∧ t = View ∧ strict_eq id (JNum 1) = false).
Proof.
  exact (author_row_not_revocable sample_author grants_with_author View (JNum 1)
           [AuthorTag; RevokeButton RevokeUser View (JNum 2)] eq_refl eq_refl).
Defined.

Lemma failed_search_offers_nothing_witness :
  UserSelect.options (λ _, Some true)
    (UserSelect.on_search_settled (Fulfilled JNull) UserSelect.initial) = Some [].
Proof.
  apply (proj2 (failed_search_offers_nothing (λ _, Some true) UserSelect.initial JNull)).
  reflexivity.
Defined.

Lemma search_without_list_throws_witness :
  UserSelect.users (UserSelect.on_search_settled (Fulfilled (JObj ∅)) UserSelect.initial)
    = JUndefined ∧
  UserSelect.loadingUsers
    (UserSelect.on_search_settled (Fulfilled (JObj ∅)) UserSelect.initial) = false ∧
  UserSelect.options (λ _, Some true)
    (UserSelect.on_search_settled (Fulfilled (JObj ∅)) UserSelect.initial) = None.
Proof.
  exact (search_without_list_throws (λ _, Some true) UserSelect.initial (JObj ∅)
           JUndefined eq_refl eq_refl).
Defined.


Lemma searches_come_from_keystrokes_witness :
  (length (Debounce.searches Debounce.DEBOUNCE_SEARCH_DURATION Debounce.typing_ali 1000
             Debounce.fresh) ≤ 3)%nat.
Proof.
  apply (proj2 (searches_come_from_keystrokes Debounce.typing_ali 0 1000
                  ltac:(simpl; lia))).
Defined.

Lemma late_response_is_applied_witness :
  UserSelect.on_search_settled
    (Fulfilled (JObj (<["results" := JArr sample_found]> ∅)))
    (UserSelect.on_search "cy" UserSelect.initial) =
    {| UserSelect.loadingUsers := false; UserSelect.users := JArr sample_found;
       UserSelect.searchTerm := "cy" |}.
Proof.
  exact (late_response_is_applied UserSelect.initial "cy"
           (JObj (<["results" := JArr sample_found]> ∅)) sample_found eq_refl).
Defined.

Lemma options_exclude_author_and_granted_witness :
  strict_eq (JNum 3) (JNum 1) = false ∧
  has_id (users (access grants_with_author View)) (JNum 3) = false.
Proof.
  apply (options_exclude_author_and_granted no_deep_match sample_author
           grants_with_author View (JNum 1)
           {| UserSelect.loadingUsers := false; UserSelect.users := JArr sample_found;
              UserSelect.searchTerm := "c" |}
           sample_found
           [UserSelect.UserOption (JNum 3) (JStr "Cy") (JStr "cy@example.org")]
           (JNum 3) (JStr "Cy") (JStr "cy@example.org"));
    try reflexivity.
  - repeat constructor; eexists; (split; [reflexivity|]); split; reflexivity.
  - apply list_elem_of_here.
Defined.
